(** * Example 6 (PDE): the Poisson notebook of pykan

    A shallow embedding of [docs/.ipynb_checkpoints/Example_6_PDE_-checkpoint.ipynb],
    which fits a KAN to the Poisson equation on the square [-1,1]^2 and then
    reads a formula off the fitted network.

    Conventions of the embedding.
    - Tensors are nested lists; their entries (torch floats) are modelled as
      exact rationals [Q].  Every arithmetic operation the notebook itself
      applies to tensors is a field operation.
    - What the [kan] and [torch] libraries own (the KAN model, the LBFGS
      optimizer, automatic differentiation, [torch.sin], [torch.pi],
      [torch.rand]) is opaque: the fields of the interface [Lib].
    - The module namespace of the notebook is a record [Env] that is passed
      explicitly from statement to statement.
    - A computation [W A] lists the library calls the code makes, in order,
      when none of them raises, together with its outcome: a value, or an
      exception the notebook's own code raises.  [exec] runs such a
      computation against libraries whose calls may raise: the notebook
      has no [try], so the run stops at the first call that raises. *)

From Stdlib Require Import String.
From Stdlib Require Import List QArith Qpower ZArith Lia Lqa Bool Arith.
Import ListNotations.

Open Scope Q_scope.

(** ** Tensors *)

Definition Tensor1 := list Q.
Definition Tensor2 := list (list Q).
Definition Tensor3 := list (list (list Q)).

(** [map2 f a b]: an elementwise binary operation on tensors of the same
    shape (where torch's broadcasting is the identity). *)
Fixpoint map2 {A B C : Type} (f : A -> B -> C) (a : list A) (b : list B) : list C :=
  match a, b with
  | x :: a', y :: b' => f x y :: map2 f a' b'
  | _, _ => []
  end.

(** [t.permute(1,0)] on a two-axis tensor, and on the two leading axes of a
    three-axis one ([permute(1,0,2)]): the transpose of a list of rows. *)
Fixpoint transpose {A : Type} (m : list (list A)) : list (list A) :=
  match m with
  | [] => []
  | r :: rs =>
      match rs with
      | [] => map (fun a => [a]) r
      | _ :: _ => map2 cons r (transpose rs)
      end
  end.

(** Pointwise equality of tensors of rationals, and its boolean test. *)
Definition teq1 (a b : Tensor1) : Prop := Forall2 Qeq a b.
Definition teq2 (a b : Tensor2) : Prop := Forall2 teq1 a b.

Fixpoint teqb1 (a b : Tensor1) : bool :=
  match a, b with
  | [], [] => true
  | x :: a', y :: b' => Qeq_bool x y && teqb1 a' b'
  | _, _ => false
  end.

Fixpoint teqb2 (a b : Tensor2) : bool :=
  match a, b with
  | [], [] => true
  | x :: a', y :: b' => teqb1 x y && teqb2 a' b'
  | _, _ => false
  end.

(** ** Cell 1: constants and sampling *)

Definition dim : nat := 2.
Definition np_i : nat := 21.
Definition np_b : nat := 21.
Definition ranges : list Q := [-1; 1].

Definition sampling_mode : string := "random".

(** [torch.linspace(a, b, steps)]: [steps] equally spaced values from [a] to
    [b], both included. *)
Definition linspace (a b : Q) (n : nat) : Tensor1 :=
  map (fun i => a + inject_Z (Z.of_nat i) * ((b - a) / inject_Z (Z.of_nat n - 1)))
      (seq 0 n).

(** [torch.meshgrid(xs, ys, indexing="ij")]: [X[i][j] = xs[i]], [Y[i][j] = ys[j]]. *)
Definition meshgrid_ij (xs ys : Tensor1) : Tensor2 * Tensor2 :=
  (map (fun x => map (fun _ => x) ys) xs, map (fun _ => ys) xs).

Definition x_mesh : Tensor1 := linspace (nth 0 ranges 0) (nth 1 ranges 0) np_i.
Definition y_mesh : Tensor1 := linspace (nth 0 ranges 0) (nth 1 ranges 0) np_i.
Definition X : Tensor2 := fst (meshgrid_ij x_mesh y_mesh).
Definition Y : Tensor2 := snd (meshgrid_ij x_mesh y_mesh).

(** Indexing.  [t[0]], [t[-1]], [t[:,0]], [t[:,-1]].  Out of range torch
    raises an IndexError; the mesh has 21 rows and columns, so the default
    values below are never produced (see [mesh_shape]). *)
Definition row_first (t : Tensor2) : Tensor1 := nth 0 t [].
Definition row_last (t : Tensor2) : Tensor1 := last t [].
Definition col_first (t : Tensor2) : Tensor1 := map (fun r => nth 0 r 0) t.
Definition col_last (t : Tensor2) : Tensor1 := map (fun r => last r 0) t.

(** [t.reshape(-1,)]: the identity on a one-axis tensor, row-major
    flattening on a two-axis one. *)
Definition reshape_flat (t : Tensor2) : Tensor1 := concat t.

(** [helper = lambda X, Y: torch.stack([X.reshape(-1,), Y.reshape(-1,)]).permute(1,0)],
    applied to one-axis tensors. *)
Definition helper (Xv Yv : Tensor1) : Tensor2 := transpose [Xv; Yv].

Definition xb1 : Tensor2 := helper (row_first X) (row_first Y).
Definition xb2 : Tensor2 := helper (row_last X) (row_first Y).
Definition xb3 : Tensor2 := helper (col_first X) (col_first Y).
Definition xb4 : Tensor2 := helper (col_first X) (col_last Y).

(** [torch.cat([xb1, xb2, xb3, xb4], dim=0)]. *)
Definition x_b : Tensor2 := xb1 ++ xb2 ++ xb3 ++ xb4.

(** ** The boundary batch, described edge by edge *)

Definition edge_x (c : Q) : Tensor2 := map (fun y => [c; y]) (linspace (-1) 1 21).
Definition edge_y (c : Q) : Tensor2 := map (fun x => [x; c]) (linspace (-1) 1 21).

Definition on_boundary (row : Tensor1) : Prop :=
  Exists (fun c => c == -1 \/ c == 1) row.

Definition on_boundaryb (row : Tensor1) : bool :=
  existsb (fun c => Qeq_bool c (-1) || Qeq_bool c 1) row.

(** Counting the rows equal to a point, and the rows up to repetition. *)
Definition count_point (p : Tensor1) (t : Tensor2) : nat :=
  length (filter (teqb1 p) t).

Fixpoint distinct (t : Tensor2) : Tensor2 :=
  match t with
  | [] => []
  | p :: r => if existsb (teqb1 p) r then distinct r else p :: distinct r
  end.

Definition corners : Tensor2 := [[-1; -1]; [-1; 1]; [1; -1]; [1; 1]].

Definition is_corner (p : Tensor1) : bool := existsb (teqb1 p) corners.

(** ** The external libraries

    [kan] (the KAN model and its LBFGS optimizer), [torch] and
    [torch.autograd] are opaque collaborators of the notebook.  Their
    objects and operations are the fields of this interface.  Operations
    that mutate a library object in place are functions from the old
    object to the new one. *)
Class Lib : Type := {
  (** a [KAN] instance: parameters, their [.grad] buffers, grids, symbolic masks *)
  Model : Type;
  (** what an [LBFGS] instance owns: curvature history, line-search state, counters *)
  Opt : Type;
  (** the sympy expressions returned by [symbolic_formula] *)
  Formula : Type;
  (** the exceptions library code can raise *)
  LibExn : Type;
  torch_sin : Q -> Q;
  torch_pi : Q;
  (** [torch.rand((n, m))] *)
  torch_rand : nat -> nat -> Tensor2;
  (** [KAN(width, grid, k, grid_eps, noise_scale_base)] *)
  KAN_new : list nat -> nat -> nat -> Q -> Q -> Model;
  (** [model(x)] *)
  forward : Model -> Tensor2 -> Tensor2;
  (** [autograd.functional.jacobian(f, x, create_graph)], for [f] from a
      two-axis tensor to a one-axis tensor: axes (output, batch, length) *)
  jacobian : (Tensor2 -> Tensor1) -> Tensor2 -> Tensor3;
  (** [optimizer.zero_grad()] *)
  zero_grad : Model -> Model;
  (** [loss.backward()] for the loss built with weight [a] from the
      interior and boundary batches: fills the gradient buffers *)
  backward : Model -> Q -> Tensor2 -> Tensor2 -> Model;
  (** [model.update_grid_from_samples(x)] *)
  update_grid_from_samples : Model -> Tensor2 -> Model;
  (** [LBFGS(model.parameters(), lr=1, history_size=10,
      line_search_fn="strong_wolfe", tolerance_grad=1e-32,
      tolerance_change=1e-32, tolerance_ys=1e-32)] *)
  LBFGS_new : Model -> Opt;
  (** the bound of one [step] on further closure evaluations *)
  lbfgs_max_eval : nat;
  (** what [step] does with the loss and gradients of one closure
      evaluation: the new optimizer state, the parameters moved in place,
      and whether the closure is evaluated again *)
  lbfgs_update : Opt -> Model -> Q -> Opt * Model * bool;
  (** [model.fix_symbolic(l, i, j, fun_name)] *)
  fix_symbolic : Model -> nat -> nat -> nat -> string -> Model;
  (** [model.symbolic_formula(floating_digit)] *)
  symbolic_formula : Model -> nat -> Formula
}.

(** ** Cell 1: the loss *)

Section Loss.
Context {L : Lib}.

(** Elementwise operations on two-axis tensors. *)
Definition tscale (c : Q) (t : Tensor2) : Tensor2 := map (map (Qmult c)) t.
Definition tsin (t : Tensor2) : Tensor2 := map (map torch_sin) t.
Definition tmul (a b : Tensor2) : Tensor2 := map2 (map2 Qmult) a b.
Definition tsub (a b : Tensor2) : Tensor2 := map2 (map2 Qminus) a b.
Definition tsquare (t : Tensor2) : Tensor2 := map (map (fun v => v ^ 2)) t.

(** [x[:,[j]]]: column [j], kept as a two-axis tensor. *)
Definition col (j : nat) (x : Tensor2) : Tensor2 := map (fun row => [nth j row 0]) x.

Definition sum_list (l : list Q) : Q := fold_right Qplus 0 l.

(** [t.sum(dim=0)]. *)
Fixpoint sum_dim0 (t : Tensor2) : Tensor1 :=
  match t with
  | [] => []
  | r :: rs =>
      match rs with
      | [] => r
      | _ :: _ => map2 Qplus r (sum_dim0 rs)
      end
  end.

(** [torch.mean(t)]: the mean of all entries. *)
Definition mean (t : Tensor2) : Q :=
  sum_list (concat t) / inject_Z (Z.of_nat (length (concat t))).

(** [torch.diagonal(H, dim1, dim2)] of one matrix: [H[0][0]], [H[1][1]], ... *)
Fixpoint diagonal_from (k : nat) (H : Tensor2) : Tensor1 :=
  match H with
  | [] => []
  | r :: rs =>
      match nth_error r k with
      | Some v => v :: diagonal_from (S k) rs
      | None => []
      end
  end.

Definition diagonal (H : Tensor2) : Tensor1 := diagonal_from 0 H.

Definition batch_jacobian (func : Tensor2 -> Tensor2) (x : Tensor2) : Tensor3 :=
  let _func_sum := fun x => sum_dim0 (func x) in
  transpose (jacobian _func_sum x).

Definition sol_fun (x : Tensor2) : Tensor2 :=
  tmul (tsin (tscale torch_pi (col 0 x))) (tsin (tscale torch_pi (col 1 x))).

Definition source_fun (x : Tensor2) : Tensor2 :=
  tmul (tscale (-2 * torch_pi ^ 2) (tsin (tscale torch_pi (col 0 x))))
       (tsin (tscale torch_pi (col 1 x))).

(** The numerical part of [closure], line by line.  [create_graph] only
    makes the result differentiable again and does not change its value. *)
Definition sol_D1_fun (m : Model) (x : Tensor2) : Tensor2 :=
  map (fun blk => nth 0 blk []) (batch_jacobian (forward m) x).

Definition sol_D2 (m : Model) (x : Tensor2) : Tensor3 :=
  batch_jacobian (sol_D1_fun m) x.

Definition lap (m : Model) (x : Tensor2) : Tensor2 :=
  map (fun H => [sum_list (diagonal H)]) (sol_D2 m x).

Definition pde_loss_of (m : Model) (xi : Tensor2) : Q :=
  let source := source_fun xi in
  mean (tsquare (tsub (lap m xi) source)).

Definition bc_loss_of (m : Model) (xb : Tensor2) : Q :=
  let bc_true := sol_fun xb in
  let bc_pred := forward m xb in
  mean (tsquare (tsub bc_pred bc_true)).

(** The same two residuals, written point by point. *)
Definition sol_at (p : Tensor1) : Q :=
  torch_sin (torch_pi * nth 0 p 0) * torch_sin (torch_pi * nth 1 p 0).

Definition source_at (p : Tensor1) : Q :=
  -2 * torch_pi ^ 2 * torch_sin (torch_pi * nth 0 p 0) * torch_sin (torch_pi * nth 1 p 0).





(** The shapes the libraries promise. *)
Definition has_shape2 (n w : nat) (t : Tensor2) : Prop :=
  length t = n /\ Forall (fun r => length r = w) t.

Definition has_shape3 (n b w : nat) (t : Tensor3) : Prop :=
  length t = n /\ Forall (has_shape2 b w) t.

Definition jacobian_shape : Prop :=
  forall f x b w, has_shape2 b w x -> has_shape3 (length (f x)) b w (jacobian f x).

Definition forward_shape (m : Model) : Prop :=
  forall x, has_shape2 (length x) 1 (forward m x).

End Loss.

(** ** Calls into the libraries, exceptions, the module namespace *)

Section Notebook.
Context {L : Lib}.

(** One event per statement of the notebook that calls into a library,
    with the arguments the later statements depend on. *)
Inductive Event : Type :=
| EvKAN (width : list nat) (grid k : nat)
| EvLinspace (a b : Q) (n : nat)
| EvMeshgrid
| EvStack
| EvRand (n m : nat)
| EvCat
| EvLBFGS (m : Model)
| EvTqdm (n : nat)
| EvUpdateGrid (it : nat) (x : Tensor2)
| EvStep (it : nat) (o : Opt)
| EvZeroGrad
| EvInterior (x : Tensor2)
| EvBoundary (x : Tensor2)
| EvBackward (loss : Q)
| EvL2 (it : nat) (x : Tensor2)
| EvSetDescription (it : nat) (pde bc l2 : Q)
| EvPlot (beta : nat)
| EvFixSymbolic (l i j : nat) (fun_name : string)
| EvSymbolicFormula (floating_digit : nat).

Inductive exn : Type :=
| NameError (name : string)
| ZeroDivisionError
| LibraryError (e : LibExn).

Inductive outcome (A : Type) : Type :=
| Ok (a : A)
| Raise (x : exn).
Arguments Ok {A} a.
Arguments Raise {A} x.

(** A computation: the library calls it makes when none of them raises, in
    order, and how it ends. *)
Definition W (A : Type) : Type := (list Event * outcome A)%type.

Definition ret {A : Type} (a : A) : W A := ([], Ok a).

Definition throw {A : Type} (x : exn) : W A := ([], Raise x).

Definition call (ev : Event) : W unit := ([ev], Ok tt).

Definition bind {A B : Type} (m : W A) (f : A -> W B) : W B :=
  match m with
  | (t, Ok a) => let '(t', r) := f a in (t ++ t', r)
  | (t, Raise x) => (t, Raise x)
  end.

(** A library call may raise: [raises h ev] is the exception that the call
    [ev] raises after the calls [h], if any.  Nothing in the notebook
    catches, so a run stops at the first call that raises. *)
Fixpoint cut (raises : list Event -> Event -> option LibExn)
    (h todo : list Event) : option (list Event * LibExn) :=
  match todo with
  | [] => None
  | ev :: rest =>
      match raises h ev with
      | Some e => Some (h ++ [ev], e)
      | None => cut raises (h ++ [ev]) rest
      end
  end.

Definition exec {A : Type} (raises : list Event -> Event -> option LibExn)
    (w : W A) : W A :=
  match cut raises [] (fst w) with
  | Some (t, e) => (t, Raise (LibraryError e))
  | None => w
  end.

(** The module-level names that [fit] and [closure] read or assign. *)
Record Env : Type := {
  g_model : Model;
  g_x_i : Tensor2;
  g_x_b : Tensor2;
  g_steps : nat;
  g_alpha : Q;
  g_log : nat;
  g_pde_loss : option Q;
  g_bc_loss : option Q
}.

Definition set_model (env : Env) (m : Model) : Env :=
  {| g_model := m; g_x_i := g_x_i env; g_x_b := g_x_b env;
     g_steps := g_steps env; g_alpha := g_alpha env; g_log := g_log env;
     g_pde_loss := g_pde_loss env; g_bc_loss := g_bc_loss env |}.

Definition set_pde_loss (env : Env) (v : Q) : Env :=
  {| g_model := g_model env; g_x_i := g_x_i env; g_x_b := g_x_b env;
     g_steps := g_steps env; g_alpha := g_alpha env; g_log := g_log env;
     g_pde_loss := Some v; g_bc_loss := g_bc_loss env |}.

Definition set_bc_loss (env : Env) (v : Q) : Env :=
  {| g_model := g_model env; g_x_i := g_x_i env; g_x_b := g_x_b env;
     g_steps := g_steps env; g_alpha := g_alpha env; g_log := g_log env;
     g_pde_loss := g_pde_loss env; g_bc_loss := Some v |}.

(** Reading a module-level name that may not be bound yet. *)
Definition get_global (name : string) (v : option Q) : W Q :=
  match v with
  | Some q => ret q
  | None => throw (NameError name)
  end.

(** Python's [a % b] on non-negative integers. *)
Definition py_mod (a b : nat) : W nat :=
  if Nat.eqb b 0 then throw ZeroDivisionError else ret (Nat.modulo a b).

Fixpoint for_each {S : Type} (l : list nat) (body : nat -> S -> W S) (s : S) : W S :=
  match l with
  | [] => ret s
  | i :: l' => bind (body i s) (for_each l' body)
  end.

End Notebook.

Arguments Ok {L A} a.
Arguments Raise {L A} x.

Notation "x <- c1 ;; c2" := (bind c1 (fun x => c2))
  (at level 61, c1 at next level, right associativity).
Notation "' pat <- c1 ;; c2" := (bind c1 (fun x => match x with pat => c2 end))
  (at level 61, pat pattern, c1 at next level, right associativity).
Notation "c1 ;; c2" := (bind c1 (fun _ => c2))
  (at level 61, right associativity).

(** ** Cell 1: training *)

Definition steps : nat := 20.
Definition alpha : Q := 1 # 10.
Definition log : nat := 1.

Section Training.
Context {L : Lib}.

(** [closure], as [optimizer.step] calls it.  [global pde_loss, bc_loss]:
    the two residuals are assigned in the module namespace. *)
Definition closure (env : Env) : W (Q * Env) :=
  call EvZeroGrad ;;
  let env := set_model env (zero_grad (g_model env)) in
  (* interior loss *)
  call (EvInterior (g_x_i env)) ;;
  let sol := sol_fun (g_x_i env) in
  let sol_D1 := sol_D1_fun (g_model env) (g_x_i env) in
  let env := set_pde_loss env (pde_loss_of (g_model env) (g_x_i env)) in
  (* boundary loss *)
  call (EvBoundary (g_x_b env)) ;;
  let env := set_bc_loss env (bc_loss_of (g_model env) (g_x_b env)) in
  pde <- get_global "pde_loss" (g_pde_loss env) ;;
  bc <- get_global "bc_loss" (g_bc_loss env) ;;
  let loss := g_alpha env * pde + bc in
  call (EvBackward loss) ;;
  let env := set_model env (backward (g_model env) (g_alpha env) (g_x_i env) (g_x_b env)) in
  ret (loss, env).

(** Modelled from the spec: [LBFGS.step] of the [kan] package, which the
    notebook imports and which is not part of the sources at hand.  The
    closure is "invoked by the optimizer's internal line-search": it is
    evaluated once for the current parameters, and then again as long as
    the optimizer asks for it and its budget of evaluations lasts; the
    parameters move in place between the evaluations.  What the optimizer
    decides is the parameter [lbfgs_update]. *)
Fixpoint lbfgs_iterate (fuel : nat) (o : Opt) (loss : Q) (env : Env) : W (Opt * Env) :=
  let '(o', m', again) := lbfgs_update o (g_model env) loss in
  let env := set_model env m' in
  match fuel with
  | O => ret (o', env)
  | S fuel' =>
      if again
      then ' (loss', env) <- closure env ;; lbfgs_iterate fuel' o' loss' env
      else ret (o', env)
  end.

Definition lbfgs_step (it : nat) (o : Opt) (env : Env) : W (Opt * Env) :=
  call (EvStep it o) ;;
  ' (loss, env) <- closure env ;;
  lbfgs_iterate lbfgs_max_eval o loss env.

(** The body of [for _ in pbar]. *)
Definition fit_iter (it : nat) (s : Opt * Env) : W (Opt * Env) :=
  let '(optimizer, env) := s in
  r <- py_mod it 5 ;;
  env <- (if Nat.eqb r 0 && Nat.ltb it 50
          then call (EvUpdateGrid it (g_x_i env)) ;;
               ret (set_model env (update_grid_from_samples (g_model env) (g_x_i env)))
          else ret env) ;;
  ' (optimizer, env) <- lbfgs_step it optimizer env ;;
  let sol := sol_fun (g_x_i env) in
  pde <- get_global "pde_loss" (g_pde_loss env) ;;
  bc <- get_global "bc_loss" (g_bc_loss env) ;;
  let loss := g_alpha env * pde + bc in
  call (EvL2 it (g_x_i env)) ;;
  let l2 := mean (tsquare (tsub (forward (g_model env) (g_x_i env)) sol)) in
  r <- py_mod it (g_log env) ;;
  (if Nat.eqb r 0 then call (EvSetDescription it pde bc l2) else ret tt) ;;
  ret (optimizer, env).

Definition fit (env : Env) : W Env :=
  call (EvLBFGS (g_model env)) ;;
  let optimizer := LBFGS_new (g_model env) in
  call (EvTqdm (g_steps env)) ;;
  ' (_, env) <- for_each (seq 0 (g_steps env)) fit_iter (optimizer, env) ;;
  ret env.

(** ** The cells *)

(** The interior batch: [sampling_mode] selects the mesh or the random draw. *)
Definition sample_interior : W Tensor2 :=
  if String.eqb sampling_mode "mesh"
  then call EvStack ;; ret (transpose [reshape_flat X; reshape_flat Y])
  else call (EvRand (np_i ^ 2) 2) ;;
       ret (map (map (fun u => u * 2 - 1)) (torch_rand (np_i ^ 2) 2)).

(** Cell 1 up to the definition of [fit]. *)
Definition cell1_setup : W Env :=
  call (EvKAN [2; 2; 1]%nat 5 3) ;;
  let model := KAN_new [2; 2; 1]%nat 5 3 1 (1 # 4) in
  call (EvLinspace (nth 0 ranges 0) (nth 1 ranges 0) np_i) ;;
  call (EvLinspace (nth 0 ranges 0) (nth 1 ranges 0) np_i) ;;
  call EvMeshgrid ;;
  x_i <- sample_interior ;;
  call EvStack ;; call EvStack ;; call EvStack ;; call EvStack ;;
  call EvCat ;;
  ret {| g_model := model; g_x_i := x_i; g_x_b := x_b;
         g_steps := steps; g_alpha := alpha; g_log := log;
         g_pde_loss := None; g_bc_loss := None |}.

(** Cell 3: [for i in range(2): for j in range(2): model.fix_symbolic(0,i,j,'x')]
    and [for i in range(2): model.fix_symbolic(1,i,0,'sin')]. *)
Definition fix_first_layer (env : Env) : W Env :=
  for_each (seq 0 2) (fun i env =>
    for_each (seq 0 2) (fun j env =>
      call (EvFixSymbolic 0 i j "x") ;;
      ret (set_model env (fix_symbolic (g_model env) 0 i j "x"))) env) env.

Definition fix_second_layer (env : Env) : W Env :=
  for_each (seq 0 2) (fun i env =>
    call (EvFixSymbolic 1 i 0 "sin") ;;
    ret (set_model env (fix_symbolic (g_model env) 1 i 0 "sin"))) env.

Definition cell3 (env : Env) : W Env :=
  env <- fix_first_layer env ;;
  fix_second_layer env.

(** The notebook, cell after cell. *)
Definition notebook : W (Formula * Env) :=
  env <- cell1_setup ;;
  env <- fit env ;;
  call (EvPlot 10) ;;
  env <- cell3 env ;;
  env <- fit env ;;
  call (EvSymbolicFormula 5) ;;
  let formula := symbolic_formula (g_model env) 5 in
  ret (formula, env).

End Training.

(** ** Views of a trace *)

(** The calls of a trace without the library objects they carry; the calls
    made inside [closure] have no mark. *)
Inductive Mark : Type :=
| MKan
| MLinspace
| MMeshgrid
| MStack
| MRand (n m : nat)
| MCat
| MLbfgs
| MTqdm (n : nat)
| MUpdateGrid (it : nat)
| MStep (it : nat)
| ML2 (it : nat)
| MDescribe (it : nat)
| MPlot (beta : nat)
| MFix (l i j : nat) (fun_name : string)
| MFormula (floating_digit : nat).

Inductive Stage : Type := Sample | Train | FixSymbolic | Extract.

Definition Stage_eqb (a b : Stage) : bool :=
  match a, b with
  | Sample, Sample | Train, Train | FixSymbolic, FixSymbolic | Extract, Extract => true
  | _, _ => false
  end.

(** Constructing the model and plotting it belong to no stage. *)
Definition stage_of (k : Mark) : option Stage :=
  match k with
  | MKan | MPlot _ => None
  | MLinspace | MMeshgrid | MStack | MRand _ _ | MCat => Some Sample
  | MLbfgs | MTqdm _ | MUpdateGrid _ | MStep _ | ML2 _ | MDescribe _ => Some Train
  | MFix _ _ _ _ => Some FixSymbolic
  | MFormula _ => Some Extract
  end.

(** The stages a sequence of marks goes through, each maximal run of one
    stage counted once. *)
Fixpoint stages_from (cur : option Stage) (ks : list Mark) : list Stage :=
  match ks with
  | [] => []
  | k :: ks' =>
      match stage_of k, cur with
      | None, _ => stages_from cur ks'
      | Some s, Some c =>
          if Stage_eqb s c then stages_from cur ks' else s :: stages_from (Some s) ks'
      | Some s, None => s :: stages_from (Some s) ks'
      end
  end.

Definition stages (ks : list Mark) : list Stage := stages_from None ks.

(** [_ % 5 == 0 and _ < 50] *)
Definition grid_update_due (it : nat) : bool :=
  Nat.eqb (Nat.modulo it 5) 0 && Nat.ltb it 50.

Definition iter_marks (lg it : nat) : list Mark :=
  (if grid_update_due it then [MUpdateGrid it] else []) ++
  [MStep it; ML2 it] ++
  (if Nat.eqb (Nat.modulo it lg) 0 then [MDescribe it] else []).

Definition fit_marks (n lg : nat) : list Mark :=
  MLbfgs :: MTqdm n :: flat_map (iter_marks lg) (seq 0 n).

Definition sampling_marks : list Mark :=
  [MLinspace; MLinspace; MMeshgrid; MRand 441 2; MStack; MStack; MStack; MStack; MCat].

Definition fix_marks : list Mark :=
  [MFix 0 0 0 "x"; MFix 0 0 1 "x"; MFix 0 1 0 "x"; MFix 0 1 1 "x";
   MFix 1 0 0 "sin"; MFix 1 1 0 "sin"].

Definition notebook_marks : list Mark :=
  MKan :: sampling_marks ++ fit_marks 20 1 ++ [MPlot 10] ++ fix_marks ++
  fit_marks 20 1 ++ [MFormula 5].

(** The iterations in which the grid is updated, and the optimizer steps. *)
Definition grid_update_iters (ks : list Mark) : list nat :=
  flat_map (fun k => match k with MUpdateGrid it => [it] | _ => [] end) ks.

Definition step_iters (ks : list Mark) : list nat :=
  flat_map (fun k => match k with MStep it => [it] | _ => [] end) ks.

Section Views.
Context {L : Lib}.

Definition mark_of (ev : Event) : option Mark :=
  match ev with
  | EvKAN _ _ _ => Some MKan
  | EvLinspace _ _ _ => Some MLinspace
  | EvMeshgrid => Some MMeshgrid
  | EvStack => Some MStack
  | EvRand n m => Some (MRand n m)
  | EvCat => Some MCat
  | EvLBFGS _ => Some MLbfgs
  | EvTqdm n => Some (MTqdm n)
  | EvUpdateGrid it _ => Some (MUpdateGrid it)
  | EvStep it _ => Some (MStep it)
  | EvZeroGrad | EvInterior _ | EvBoundary _ | EvBackward _ => None
  | EvL2 it _ => Some (ML2 it)
  | EvSetDescription it _ _ _ => Some (MDescribe it)
  | EvPlot beta => Some (MPlot beta)
  | EvFixSymbolic l i j f => Some (MFix l i j f)
  | EvSymbolicFormula d => Some (MFormula d)
  end.

Definition marks (t : list Event) : list Mark :=
  flat_map (fun ev => match mark_of ev with Some k => [k] | None => [] end) t.

(** The batch a call works on is the interior batch [xi], for a loss
    evaluation, a grid update and an l2 report, and the boundary batch
    [xb] for the boundary residual. *)
Definition uses_batches (xi xb : Tensor2) (ev : Event) : Prop :=
  match ev with
  | EvUpdateGrid _ x | EvInterior x | EvL2 _ x => x = xi
  | EvBoundary x => x = xb
  | _ => True
  end.

(** Moreover the loss handed to [backward] is the weighted sum, with the
    weight [a], of the two residuals of some state [m] of the model on
    these batches. *)
Definition reads_globals (a : Q) (xi xb : Tensor2) (ev : Event) : Prop :=
  uses_batches xi xb ev /\
  match ev with
  | EvBackward loss => exists m, loss = a * pde_loss_of m xi + bc_loss_of m xb
  | _ => True
  end.


(** What the training loop leaves alone, and what it assigns. *)
Definition same_globals (env env' : Env) : Prop :=
  g_x_i env' = g_x_i env /\ g_x_b env' = g_x_b env /\
  g_steps env' = g_steps env /\ g_alpha env' = g_alpha env /\
  g_log env' = g_log env.

Definition losses_bound (env : Env) : Prop :=
  g_pde_loss env <> None /\ g_bc_loss env <> None.

(** No library call of [done], made after the calls [h], raises. *)
Definition quietly (raises : list Event -> Event -> option LibExn)
    (h done : list Event) : Prop :=
  forall d1 ev d2, done = d1 ++ ev :: d2 -> raises (h ++ d1) ev = None.

(** The optimizer handed to the first [step] of a trace. *)
Fixpoint first_step (t : list Event) : option (nat * Opt) :=
  match t with
  | [] => None
  | EvStep it o :: _ => Some (it, o)
  | _ :: t' => first_step t'
  end.

End Views.


(** ** A small instance of the libraries

    A model with one parameter, the constant it outputs; used to run the
    notebook on concrete data. *)
Definition demo_jacobian (f : Tensor2 -> Tensor1) (x : Tensor2) : Tensor3 :=
  map (fun _ => map (map (fun _ => 0)) x) (f x).

Definition demo_lib : Lib := {|
  Model := Q;
  Opt := nat;
  Formula := Q;
  LibExn := nat;
  torch_sin := fun x => x - x ^ 3 / 6;
  torch_pi := 22 # 7;
  torch_rand := fun n m => repeat (repeat (1 # 2) m) n;
  KAN_new := fun _ _ _ _ noise => noise;
  forward := fun m x => map (fun _ => [m]) x;
  jacobian := demo_jacobian;
  zero_grad := fun m => m;
  backward := fun m _ _ _ => m;
  update_grid_from_samples := fun m _ => m;
  LBFGS_new := fun _ => 0%nat;
  lbfgs_max_eval := 25;
  lbfgs_update := fun o m _ => (S o, Qred (m / 2), Nat.eqb o 0);
  fix_symbolic := fun m _ _ _ _ => m;
  symbolic_formula := fun m _ => m
|}.

Definition demo_env : @Env demo_lib :=
  @Build_Env demo_lib
    (1 # 4)
    [[0; 0]; [1 # 2; -1 # 2]; [-1 # 4; 3 # 4]]
    [[-1; 0]; [1; 0]; [0; -1]; [0; 1]]
    20 (1 # 10) 1 None None.

(** A library in which the l2 report of iteration 3 raises. *)
Definition demo_raises (h : list (@Event demo_lib)) (ev : @Event demo_lib)
    : option (@LibExn demo_lib) :=
  match ev with
  | EvL2 3 _ => Some 7%nat
  | _ => None
  end.

(** ** The sampling code for any mesh and any mode *)

(** The interior batch of the 'mesh' mode,
    [torch.stack([X.reshape(-1,), Y.reshape(-1,)]).permute(1,0)], for any
    mesh tensors. *)
Definition mesh_points (X Y : Tensor2) : Tensor2 :=
  transpose [reshape_flat X; reshape_flat Y].

(** The four [helper] calls and the [torch.cat] of the boundary batch, for
    any mesh tensors. *)
Definition boundary_of (X Y : Tensor2) : Tensor2 :=
  helper (row_first X) (row_first Y) ++ helper (row_last X) (row_first Y) ++
  helper (col_first X) (col_first Y) ++ helper (col_first X) (col_last Y).

Definition describe_iters (ks : list Mark) : list nat :=
  flat_map (fun k => match k with MDescribe it => [it] | _ => [] end) ks.

Definition l2_iters (ks : list Mark) : list nat :=
  flat_map (fun k => match k with ML2 it => [it] | _ => [] end) ks.

Section Calls.
Context {L : Lib}.


(** The library calls of one closure evaluation that ends in
    [loss.backward()]. *)
Definition closure_block (xi xb : Tensor2) (loss : Q) : list Event :=
  [EvZeroGrad; EvInterior xi; EvBoundary xb; EvBackward loss].

(** The loss of an evaluation with the residuals [r = (pde, bc)]. *)
Definition weighted (a : Q) (r : Q * Q) : Q := a * fst r + snd r.

(** The calls of [optimizer.step(closure)] with the closure evaluations
    [evals], given by their residuals. *)
Definition step_calls (a : Q) (xi xb : Tensor2) (it : nat) (o : Opt)
    (evals : list (Q * Q)) : list Event :=
  EvStep it o :: flat_map (fun r => closure_block xi xb (weighted a r)) evals.

(** What varies from one iteration of [fit] to the next: the state of the
    optimizer at the start, the residuals of its closure evaluations, the
    l2 error reported. *)
Record IterRow : Type := {
  row_opt : Opt;
  row_evals : list (Q * Q);
  row_l2 : Q
}.

Definition iter_calls (a : Q) (xi xb : Tensor2) (lg it : nat) (r : IterRow)
    : list Event :=
  (if grid_update_due it then [EvUpdateGrid it xi] else []) ++
  step_calls a xi xb it (row_opt r) (row_evals r) ++
  [EvL2 it xi] ++
  (if Nat.eqb (Nat.modulo it lg) 0
   then [EvSetDescription it (fst (last (row_evals r) (0, 0)))
                             (snd (last (row_evals r) (0, 0))) (row_l2 r)]
   else []).

Fixpoint pass_calls (a : Q) (xi xb : Tensor2) (lg it : nat) (rows : list IterRow)
    : list Event :=
  match rows with
  | [] => []
  | r :: rows' => iter_calls a xi xb lg it r ++ pass_calls a xi xb lg (S it) rows'
  end.

(** The residuals of an evaluation are those of some state of the model on
    the two batches; an l2 error is that of some state of the model on the
    interior batch. *)
Definition is_eval (xi xb : Tensor2) (r : Q * Q) : Prop :=
  exists m, r = (pde_loss_of m xi, bc_loss_of m xb).

Definition is_l2 (xi : Tensor2) (v : Q) : Prop :=
  exists m, v = mean (tsquare (tsub (forward m xi) (sol_fun xi))).

Definition row_ok (xi xb : Tensor2) (r : IterRow) : Prop :=
  (1 <= length (row_evals r) <= S lbfgs_max_eval)%nat /\
  Forall (is_eval xi xb) (row_evals r) /\ is_l2 xi (row_l2 r).

(** Every [backward] comes after a [zero_grad] with no other [backward]
    in between; [z] tells whether the gradients are zeroed at the start. *)
Fixpoint grads_zeroed (z : bool) (t : list Event) : Prop :=
  match t with
  | [] => True
  | EvZeroGrad :: t' => grads_zeroed true t'
  | EvBackward _ :: t' => z = true /\ grads_zeroed false t'
  | _ :: t' => grads_zeroed z t'
  end.

(** Every description shows residuals [pde] and [bc] whose weighted sum is
    the loss of the latest [backward]; [acc] is that loss at the start. *)
Fixpoint reports_last_loss (a : Q) (acc : option Q) (t : list Event) : Prop :=
  match t with
  | [] => True
  | EvBackward loss :: t' => reports_last_loss a (Some loss) t'
  | EvSetDescription _ pde bc _ :: t' =>
      acc = Some (a * pde + bc) /\ reports_last_loss a acc t'
  | _ :: t' => reports_last_loss a acc t'
  end.


End Calls.

(** The small instance with [log = 0]. *)
Definition demo_env_log0 : @Env demo_lib :=
  @Build_Env demo_lib
    (1 # 4)
    [[0; 0]; [1 # 2; -1 # 2]; [-1 # 4; 3 # 4]]
    [[-1; 0]; [1; 0]; [0; -1]; [0; 1]]
    20 (1 # 10) 0 None None.

(** ** Facts about the tensor helpers *)

Lemma teqb1_sound : forall a b, teqb1 a b = true -> teq1 a b.
Proof.
  induction a as [|x a IH]; intros [|y b] H; simpl in H; try discriminate.
  - constructor.
  - apply andb_prop in H. destruct H as [Hx Hr].
    constructor; [now apply Qeq_bool_iff | now apply IH].
Qed.

Lemma teqb1_complete : forall a b, teq1 a b -> teqb1 a b = true.
Proof.
  intros a b H. induction H as [|x y a b Hxy _ IH]; simpl.
  - reflexivity.
  - apply andb_true_intro. split; [now apply Qeq_bool_iff | exact IH].
Qed.

Lemma teqb2_sound : forall a b, teqb2 a b = true -> teq2 a b.
Proof.
  induction a as [|x a IH]; intros [|y b] H; simpl in H; try discriminate.
  - constructor.
  - apply andb_prop in H. destruct H as [Hx Hr].
    constructor; [now apply teqb1_sound | now apply IH].
Qed.

Lemma on_boundaryb_sound : forall row, on_boundaryb row = true -> on_boundary row.
Proof.
  unfold on_boundaryb, on_boundary. intros row H.
  apply existsb_exists in H. destruct H as [c [Hin Hc]].
  apply Exists_exists. exists c. split; [exact Hin|].
  apply orb_prop in Hc. destruct Hc as [Hc|Hc]; [left|right]; now apply Qeq_bool_iff.
Qed.

Lemma forallb_Forall {A : Type} (f : A -> bool) (P : A -> Prop) :
  (forall a, f a = true -> P a) ->
  forall l, forallb f l = true -> Forall P l.
Proof.
  intros HfP l. induction l as [|a l IH]; simpl; intros H.
  - constructor.
  - apply andb_prop in H. destruct H as [Ha Hl].
    constructor; [now apply HfP | now apply IH].
Qed.

(** The mesh really is 21 by 21, so no index used above is out of range. *)
Lemma mesh_shape :
  length X = 21%nat /\ length Y = 21%nat /\
  Forall (fun r => length r = 21%nat) X /\ Forall (fun r => length r = 21%nat) Y.
Proof.
  split; [vm_compute; reflexivity|].
  split; [vm_compute; reflexivity|].
  split.
  - apply (forallb_Forall (fun r => Nat.eqb (length r) 21)).
    + intros a H. now apply Nat.eqb_eq.
    + vm_compute. reflexivity.
  - apply (forallb_Forall (fun r => Nat.eqb (length r) 21)).
    + intros a H. now apply Nat.eqb_eq.
    + vm_compute. reflexivity.
Qed.

(** ** The boundary batch *)

(** C3.  The boundary batch is the concatenation, in this order, of the mesh
    edges x = -1, x = +1, y = -1 and y = +1 of the 21 by 21 mesh of
    [-1,1]^2; it has 4 * 21 = 84 rows of two coordinates, and every row has
    a coordinate equal to -1 or to +1. *)
Theorem x_b_four_edges :
  x_b = xb1 ++ xb2 ++ xb3 ++ xb4 /\
  teq2 xb1 (edge_x (-1)) /\ teq2 xb2 (edge_x 1) /\
  teq2 xb3 (edge_y (-1)) /\ teq2 xb4 (edge_y 1) /\
  length x_b = (4 * 21)%nat /\
  Forall (fun row => length row = 2%nat /\ on_boundary row) x_b.
Proof.
  split; [reflexivity|].
  split; [apply teqb2_sound; vm_compute; reflexivity|].
  split; [apply teqb2_sound; vm_compute; reflexivity|].
  split; [apply teqb2_sound; vm_compute; reflexivity|].
  split; [apply teqb2_sound; vm_compute; reflexivity|].
  split; [vm_compute; reflexivity|].
  apply (forallb_Forall (fun row => Nat.eqb (length row) 2 && on_boundaryb row)).
  - intros row H. apply andb_prop in H. destruct H as [Hl Hb].
    split; [now apply Nat.eqb_eq | now apply on_boundaryb_sound].
  - vm_compute. reflexivity.
Qed.

(** [distinct] keeps one representative of every row and no two equal rows. *)
Lemma teq1_refl (p : Tensor1) : teq1 p p.
Proof.
  induction p as [|c p IH]; constructor; [reflexivity | exact IH].
Qed.

Lemma teq1_trans (p q r : Tensor1) : teq1 p q -> teq1 q r -> teq1 p r.
Proof.
  intros Hpq. revert r. induction Hpq as [|a b p q Hab _ IH]; intros r Hqr.
  - exact Hqr.
  - inversion Hqr as [|? c ? r' Hbc Hqr']; subst. constructor.
    + now rewrite Hab.
    + apply IH. exact Hqr'.
Qed.

Lemma distinct_sub (t : Tensor2) (p : Tensor1) : In p (distinct t) -> In p t.
Proof.
  induction t as [|a r IH]; simpl; [trivial|].
  destruct (existsb (teqb1 a) r); simpl; intuition.
Qed.

Lemma distinct_covers (t : Tensor2) :
  forall p, In p t -> Exists (teq1 p) (distinct t).
Proof.
  induction t as [|a r IH]; simpl; intros p; [contradiction|].
  intros [E|Hin].
  - subst a. destruct (existsb (teqb1 p) r) eqn:Hex.
    + apply existsb_exists in Hex. destruct Hex as [q [Hq Hpq]].
      apply teqb1_sound in Hpq. specialize (IH q Hq).
      rewrite Exists_exists in IH. destruct IH as [q' [Hq' Hqq']].
      apply Exists_exists. exists q'. split; [exact Hq'|].
      apply (teq1_trans p q q'); assumption.
    + apply Exists_cons_hd. apply teq1_refl.
  - specialize (IH p Hin). destruct (existsb (teqb1 a) r); [exact IH|].
    apply Exists_cons_tl. exact IH.
Qed.

Lemma distinct_no_repeat (t : Tensor2) :
  ForallOrdPairs (fun p q => ~ teq1 p q) (distinct t).
Proof.
  induction t as [|a r IH]; simpl; [constructor|].
  destruct (existsb (teqb1 a) r) eqn:Hex; [exact IH|].
  constructor; [|exact IH].
  apply Forall_forall. intros q Hq Haq.
  apply distinct_sub in Hq. apply teqb1_complete in Haq.
  assert (Hc : existsb (teqb1 a) r = true)
    by (apply existsb_exists; exists q; split; assumption).
  rewrite Hc in Hex. discriminate.
Qed.

(** C9.  Each of the four corners of the square occurs exactly twice among
    the 84 rows of the boundary batch, every other row occurs once, and the
    rows comprise 80 distinct points: 80 pairwise different rows, and every
    row of the batch equal to one of them. *)
Theorem x_b_corners_twice :
  length x_b = 84%nat /\
  Forall (fun c => count_point c x_b = 2%nat) corners /\
  Forall (fun p => is_corner p = false -> count_point p x_b = 1%nat) x_b /\
  length (distinct x_b) = 80%nat /\
  ForallOrdPairs (fun p q => ~ teq1 p q) (distinct x_b) /\
  Forall (fun p => Exists (teq1 p) (distinct x_b)) x_b.
Proof.
  split; [vm_compute; reflexivity|].
  split; [|split; [|split; [vm_compute; reflexivity|
    split; [apply distinct_no_repeat |
            apply Forall_forall; intros p Hp; apply distinct_covers; exact Hp]]]].
  - apply (forallb_Forall (fun c => Nat.eqb (count_point c x_b) 2)).
    + intros c H. now apply Nat.eqb_eq.
    + vm_compute. reflexivity.
  - apply (forallb_Forall
             (fun p => is_corner p || Nat.eqb (count_point p x_b) 1)).
    + intros p H Hc. rewrite Hc, orb_false_l in H. apply Nat.eqb_eq. exact H.
    + vm_compute. reflexivity.
Qed.

(** ** The loss of the closure *)

Section LossFacts.
Context {L : Lib}.

Lemma map2_length {A B C : Type} (f : A -> B -> C) :
  forall a b, length (map2 f a b) = Nat.min (length a) (length b).
Proof.
  induction a as [|x a IH]; intros [|y b]; simpl; try reflexivity.
  now rewrite IH.
Qed.


(** Transposing [k >= 1] rows of the same length [b] gives [b] columns of
    length [k]; a property of all entries is kept. *)
Lemma transpose_shape {A : Type} (P : A -> Prop) (b : nat) :
  forall m : list (list A),
    m <> [] ->
    Forall (fun r => length r = b /\ Forall P r) m ->
    length (transpose m) = b /\
    Forall (fun c => length c = length m /\ Forall P c) (transpose m).
Proof.
  induction m as [|r rs IH]; intros Hne Hall; [congruence|].
  inversion Hall as [|? ? [Hr HP] Hrs]; subst.
  destruct rs as [|r' rs'].
  - simpl. rewrite length_map. split; [reflexivity|].
    clear IH Hne Hall Hrs. induction HP as [|a r Ha _ IHr]; simpl; constructor; auto.
  - assert (Hne' : r' :: rs' <> []) by discriminate.
    destruct (IH Hne' Hrs) as [Hlen Hcols].
    change (transpose (r :: r' :: rs')) with (map2 cons r (transpose (r' :: rs'))).
    split.
    + rewrite map2_length, Hlen. apply Nat.min_id.
    + clear IH Hne Hall Hrs Hlen.
      revert Hcols. generalize (transpose (r' :: rs')) as cs.
      induction HP as [|a r Ha _ IHr]; intros [|c cs] Hcols; simpl; try constructor.
      * inversion Hcols as [|? ? [Hc HPc] _]; subst. simpl. split; [now rewrite Hc|].
        constructor; assumption.
      * inversion Hcols; subst. apply IHr. assumption.
Qed.

Lemma sum_dim0_length (w : nat) :
  forall t, t <> [] -> Forall (fun r => length r = w) t -> length (sum_dim0 t) = w.
Proof.
  induction t as [|r rs IH]; intros Hne Hall; [congruence|].
  inversion Hall as [|? ? Hr Hrs]; subst.
  destruct rs as [|r' rs'].
  - reflexivity.
  - change (sum_dim0 (r :: r' :: rs')) with (map2 Qplus r (sum_dim0 (r' :: rs'))).
    rewrite map2_length, IH; [apply Nat.min_id | discriminate | assumption].
Qed.

Lemma source_fun_rows : forall x, source_fun x = map (fun p => [source_at p]) x.
Proof.
  unfold source_fun, tmul, tscale, tsin, col, source_at.
  induction x as [|p x IH]; simpl; [reflexivity|]. f_equal. exact IH.
Qed.

Lemma sol_fun_rows : forall x, sol_fun x = map (fun p => [sol_at p]) x.
Proof.
  unfold sol_fun, tmul, tscale, tsin, col, sol_at.
  induction x as [|p x IH]; simpl; [reflexivity|]. f_equal. exact IH.
Qed.



(** The shapes along the two nested [batch_jacobian] calls. *)
Lemma sol_D1_shape (m : Model) (x : Tensor2) (b w : nat) :
  jacobian_shape -> forward_shape m -> has_shape2 (S b) w x ->
  has_shape2 (S b) w (sol_D1_fun m x).
Proof.
  intros HJ HF Hx. unfold sol_D1_fun, batch_jacobian.
  assert (Hout : length (sum_dim0 (forward m x)) = 1%nat).
  { destruct (HF x) as [Hlen Hrows]. apply sum_dim0_length; [|exact Hrows].
    destruct Hx as [Hb _]. rewrite Hb in Hlen. intros E. rewrite E in Hlen. discriminate. }
  destruct (HJ (fun x0 => sum_dim0 (forward m x0)) x (S b) w Hx) as [Hn Hblk].
  rewrite Hout in Hn.
  destruct (transpose_shape (fun r : list Q => length r = w) (S b)
              (jacobian (fun x0 => sum_dim0 (forward m x0)) x)) as [Hlen Hcols].
  - intros E. rewrite E in Hn. discriminate.
  - eapply Forall_impl; [|exact Hblk]. intros blk [H1 H2]. split; assumption.
  - split.
    + rewrite length_map. exact Hlen.
    + rewrite Hn in Hcols. apply Forall_forall. intros r Hin.
      apply in_map_iff in Hin. destruct Hin as [c [Hr Hc]]. subst r.
      rewrite Forall_forall in Hcols. destruct (Hcols c Hc) as [Hc1 Hc2].
      destruct c as [|r0 [|? ?]]; simpl in Hc1; try discriminate.
      simpl. inversion Hc2; assumption.
Qed.

Lemma sol_D2_shape (m : Model) (x : Tensor2) (b w : nat) :
  jacobian_shape -> forward_shape m -> has_shape2 (S b) (S w) x ->
  length (sol_D2 m x) = S b /\ Forall (has_shape2 (S w) (S w)) (sol_D2 m x).
Proof.
  intros HJ HF Hx. unfold sol_D2, batch_jacobian.
  destruct (sol_D1_shape m x b (S w) HJ HF Hx) as [Hl1 Hr1].
  assert (Hout : length (sum_dim0 (sol_D1_fun m x)) = S w).
  { apply sum_dim0_length; [|exact Hr1].
    intros E. rewrite E in Hl1. discriminate. }
  destruct (HJ (fun x0 => sum_dim0 (sol_D1_fun m x0)) x (S b) (S w) Hx) as [Hn Hblk].
  rewrite Hout in Hn.
  destruct (transpose_shape (fun r : list Q => length r = S w) (S b)
              (jacobian (fun x0 => sum_dim0 (sol_D1_fun m x0)) x)) as [Hlen Hcols].
  - intros E. rewrite E in Hn. discriminate.
  - eapply Forall_impl; [|exact Hblk]. intros blk [H1 H2]. split; assumption.
  - split; [exact Hlen|]. rewrite Hn in Hcols.
    eapply Forall_impl; [|exact Hcols]. intros c [H1 H2]. split; assumption.
Qed.



End LossFacts.

(** ** Runs of the training code *)

Section Runs.
Context {L : Lib}.

Lemma bind_ok {A B : Type} (m : W A) (f : A -> W B) t a t' r :
  m = (t, Ok a) -> f a = (t', r) -> bind m f = (t ++ t', r).
Proof.
  intros Hm Hf. unfold bind. rewrite Hm, Hf. reflexivity.
Qed.

Lemma marks_app (t1 t2 : list Event) : marks (t1 ++ t2) = marks t1 ++ marks t2.
Proof.
  unfold marks. apply flat_map_app.
Qed.

Lemma first_step_app (t1 t2 : list Event) :
  first_step (t1 ++ t2) =
  match first_step t1 with Some s => Some s | None => first_step t2 end.
Proof.
  induction t1 as [|ev t1 IH]; simpl; [reflexivity|].
  destruct ev; try exact IH. reflexivity.
Qed.

Lemma same_globals_refl (env : Env) : same_globals env env.
Proof.
  unfold same_globals. repeat split.
Qed.

Lemma same_globals_trans (e1 e2 e3 : Env) :
  same_globals e1 e2 -> same_globals e2 e3 -> same_globals e1 e3.
Proof.
  unfold same_globals.
  intros [A1 [A2 [A3 [A4 A5]]]] [B1 [B2 [B3 [B4 B5]]]].
  repeat split; congruence.
Qed.

Lemma same_globals_set_model (env : Env) (m : Model) :
  same_globals env (set_model env m).
Proof.
  unfold same_globals. repeat split.
Qed.

Lemma reads_globals_same (e1 e2 : Env) (t : list Event) :
  same_globals e1 e2 ->
  Forall (reads_globals (g_alpha e2) (g_x_i e2) (g_x_b e2)) t ->
  Forall (reads_globals (g_alpha e1) (g_x_i e1) (g_x_b e1)) t.
Proof.
  intros [H1 [H2 [_ [H4 _]]]]. rewrite H1, H2, H4. trivial.
Qed.

(** One evaluation of the closure: its four calls, the loss it returns and
    the two names it assigns. *)
Lemma closure_runs (env : Env) :
  exists env',
    closure env =
      ([EvZeroGrad; EvInterior (g_x_i env); EvBoundary (g_x_b env);
        EvBackward (g_alpha env * pde_loss_of (zero_grad (g_model env)) (g_x_i env)
                    + bc_loss_of (zero_grad (g_model env)) (g_x_b env))],
       Ok (g_alpha env * pde_loss_of (zero_grad (g_model env)) (g_x_i env)
           + bc_loss_of (zero_grad (g_model env)) (g_x_b env), env')) /\
    same_globals env env' /\
    g_pde_loss env' = Some (pde_loss_of (zero_grad (g_model env)) (g_x_i env)) /\
    g_bc_loss env' = Some (bc_loss_of (zero_grad (g_model env)) (g_x_b env)).
Proof.
  eexists. split; [reflexivity|].
  split; [|split; reflexivity].
  unfold same_globals. repeat split.
Qed.

Lemma closure_summary (env : Env) :
  exists t loss env',
    closure env = (t, Ok (loss, env')) /\ marks t = [] /\
    Forall (reads_globals (g_alpha env) (g_x_i env) (g_x_b env)) t /\
    same_globals env env' /\ losses_bound env'.
Proof.
  destruct (closure_runs env) as [env' [Hc [Hs [Hp Hb]]]].
  eexists; eexists; exists env'. split; [exact Hc|].
  split; [reflexivity|]. split.
  - constructor; [split; exact I|].
    constructor; [split; [reflexivity | exact I]|].
    constructor; [split; [reflexivity | exact I]|].
    constructor; [|constructor]. split; [exact I|].
    exists (zero_grad (g_model env)). reflexivity.
  - split; [exact Hs|]. unfold losses_bound. rewrite Hp, Hb. split; discriminate.
Qed.

Lemma lbfgs_iterate_eq (fuel : nat) (o : Opt) (loss : Q) (env : Env) :
  lbfgs_iterate fuel o loss env =
  let '(o', m', again) := lbfgs_update o (g_model env) loss in
  match fuel with
  | O => ret (o', set_model env m')
  | S fuel' =>
      if again
      then bind (closure (set_model env m'))
                (fun r => lbfgs_iterate fuel' o' (fst r) (snd r))
      else ret (o', set_model env m')
  end.
Proof.
  destruct fuel; simpl; destruct (lbfgs_update o (g_model env) loss) as [[o1 m1] again];
    [reflexivity|].
  destruct again; reflexivity.
Qed.

Lemma lbfgs_iterate_runs (fuel : nat) :
  forall o loss env,
    losses_bound env ->
    exists t o' env',
      lbfgs_iterate fuel o loss env = (t, Ok (o', env')) /\ marks t = [] /\
      Forall (reads_globals (g_alpha env) (g_x_i env) (g_x_b env)) t /\
      same_globals env env' /\ losses_bound env'.
Proof.
  induction fuel as [|fuel IH]; intros o loss env Hb; rewrite lbfgs_iterate_eq;
    destruct (lbfgs_update o (g_model env) loss) as [[o1 m1] again].
  - exists [], o1, (set_model env m1). repeat split; try constructor; apply Hb.
  - destruct again.
    + destruct (closure_summary (set_model env m1)) as [tc [l [e2 [Hc [Hm [Hu [Hs Hb2]]]]]]].
      destruct (IH o1 l e2 Hb2) as [t [o' [e3 [Hi [Hm3 [Hu3 [Hs3 Hb3]]]]]]].
      exists (tc ++ t), o', e3. split.
      * apply (bind_ok _ _ tc (l, e2)); assumption.
      * split; [rewrite marks_app, Hm, Hm3; reflexivity|].
        split; [|split; [|exact Hb3]].
        -- apply Forall_app. split; [exact Hu|].
           apply (reads_globals_same (set_model env m1) e2); assumption.
        -- apply (same_globals_trans env (set_model env m1) e3).
           ++ apply same_globals_set_model.
           ++ apply (same_globals_trans _ e2); assumption.
    + exists [], o1, (set_model env m1). repeat split; try constructor; apply Hb.
Qed.

Lemma lbfgs_step_runs (it : nat) (o : Opt) (env : Env) :
  exists t o' env',
    lbfgs_step it o env = (EvStep it o :: t, Ok (o', env')) /\ marks t = [] /\
    Forall (reads_globals (g_alpha env) (g_x_i env) (g_x_b env)) t /\
    same_globals env env' /\ losses_bound env'.
Proof.
  destruct (closure_summary env) as [tc [l [e2 [Hc [Hm [Hu [Hs Hb2]]]]]]].
  destruct (lbfgs_iterate_runs lbfgs_max_eval o l e2 Hb2)
    as [t [o' [e3 [Hi [Hm3 [Hu3 [Hs3 Hb3]]]]]]].
  exists (tc ++ t), o', e3. split.
  - unfold lbfgs_step.
    apply (bind_ok _ _ [EvStep it o] tt); [reflexivity|].
    apply (bind_ok _ _ tc (l, e2)); assumption.
  - split; [rewrite marks_app, Hm, Hm3; reflexivity|].
    split; [|split; [|exact Hb3]].
    + apply Forall_app. split; [exact Hu|].
      apply (reads_globals_same env e2); assumption.
    + apply (same_globals_trans _ e2); assumption.
Qed.

Lemma get_global_bound (name : string) (v : option Q) :
  v <> None -> exists q, v = Some q /\ get_global name v = ([], Ok q).
Proof.
  destruct v as [q|]; intros H; [|congruence]. exists q. split; reflexivity.
Qed.

(** One iteration of the loop of [fit]. *)
Lemma fit_iter_runs (it : nat) (o : Opt) (env : Env) :
  g_log env <> 0%nat ->
  exists t o' env',
    fit_iter it (o, env) = (t, Ok (o', env')) /\
    first_step t = Some (it, o) /\
    marks t = iter_marks (g_log env) it /\
    Forall (reads_globals (g_alpha env) (g_x_i env) (g_x_b env)) t /\
    same_globals env env' /\ losses_bound env'.
Proof.
  intros Hlog.
  set (env1 := if grid_update_due it
               then set_model env (update_grid_from_samples (g_model env) (g_x_i env))
               else env).
  assert (Hs1 : same_globals env env1).
  { unfold env1. destruct (grid_update_due it);
      [apply same_globals_set_model | apply same_globals_refl]. }
  destruct (lbfgs_step_runs it o env1) as [ts [o' [e2 [Hst [Hm [Hu [Hs2 Hb2]]]]]]].
  destruct Hb2 as [Hp Hb].
  destruct (get_global_bound "pde_loss" _ Hp) as [pde [Epde Hgp]].
  destruct (get_global_bound "bc_loss" _ Hb) as [bc [Ebc Hgb]].
  assert (Hs : same_globals env e2) by (apply (same_globals_trans _ env1); assumption).
  assert (Hlog2 : g_log e2 = g_log env) by apply Hs.
  assert (Hxi2 : g_x_i e2 = g_x_i env) by apply Hs.
  exists ((if grid_update_due it then [EvUpdateGrid it (g_x_i env)] else []) ++
          (EvStep it o :: ts) ++
          [EvL2 it (g_x_i e2)] ++
          (if Nat.eqb (Nat.modulo it (g_log e2)) 0
           then [EvSetDescription it pde bc
                   (mean (tsquare (tsub (forward (g_model e2) (g_x_i e2))
                                        (sol_fun (g_x_i e2)))))]
           else [])),
         o', e2.
  split; [|split; [|split; [|split; [|split; [exact Hs | split; [rewrite Epde | rewrite Ebc]; discriminate]]]]].
  - unfold fit_iter.
    apply (bind_ok _ _ [] (Nat.modulo it 5)); [reflexivity|].
    change (Nat.eqb (Nat.modulo it 5) 0 && Nat.ltb it 50) with (grid_update_due it).
    apply (bind_ok _ _ (if grid_update_due it then [EvUpdateGrid it (g_x_i env)] else []) env1).
    { unfold env1. destruct (grid_update_due it); reflexivity. }
    apply (bind_ok _ _ (EvStep it o :: ts) (o', e2)); [exact Hst|].
    apply (bind_ok _ _ [] pde); [exact Hgp|].
    apply (bind_ok _ _ [] bc); [exact Hgb|].
    apply (bind_ok _ _ [EvL2 it (g_x_i e2)] tt); [reflexivity|].
    apply (bind_ok _ _ [] (Nat.modulo it (g_log e2))).
    { unfold py_mod. rewrite Hlog2.
      destruct (Nat.eqb (g_log env) 0) eqn:E; [|reflexivity].
      apply Nat.eqb_eq in E. contradiction. }
    destruct (Nat.eqb (Nat.modulo it (g_log e2)) 0); reflexivity.
  - rewrite first_step_app. destruct (grid_update_due it); reflexivity.
  - rewrite !marks_app. unfold iter_marks. rewrite Hlog2.
    f_equal; [destruct (grid_update_due it); reflexivity|].
    simpl. rewrite Hm. simpl. do 2 f_equal.
    destruct (Nat.eqb (Nat.modulo it (g_log env)) 0); reflexivity.
  - apply Forall_app. split.
    { destruct (grid_update_due it); repeat constructor. }
    apply Forall_app. split.
    { constructor; [split; exact I|]. apply (reads_globals_same env env1); assumption. }
    apply Forall_app. split.
    { constructor; [split; [exact Hxi2 | exact I] | constructor]. }
    destruct (Nat.eqb (Nat.modulo it (g_log e2)) 0); repeat constructor.
Qed.

(** The loop of [fit] over any list of indices. *)
Lemma fit_loop_runs (l : list nat) :
  forall o env,
    g_log env <> 0%nat ->
    exists t o' env',
      for_each l fit_iter (o, env) = (t, Ok (o', env')) /\
      first_step t = match l with [] => None | it :: _ => Some (it, o) end /\
      marks t = flat_map (iter_marks (g_log env)) l /\
      Forall (reads_globals (g_alpha env) (g_x_i env) (g_x_b env)) t /\
      same_globals env env' /\ (l <> [] -> losses_bound env').
Proof.
  induction l as [|it l IH]; intros o env Hlog.
  - exists [], o, env. repeat split; try constructor; congruence.
  - destruct (fit_iter_runs it o env Hlog) as [t1 [o1 [e1 [H1 [Hf1 [Hm1 [Hu1 [Hs1 Hb1]]]]]]]].
    assert (Hlog1 : g_log e1 <> 0%nat).
    { destruct Hs1 as [_ [_ [_ [_ E]]]]. rewrite E. exact Hlog. }
    destruct (IH o1 e1 Hlog1) as [t2 [o2 [e2 [H2 [_ [Hm2 [Hu2 [Hs2 Hb2]]]]]]]].
    exists (t1 ++ t2), o2, e2. split.
    + change (for_each (it :: l) fit_iter (o, env))
        with (bind (fit_iter it (o, env)) (for_each l fit_iter)).
      apply (bind_ok _ _ t1 (o1, e1)); assumption.
    + split; [rewrite first_step_app, Hf1; reflexivity|]. split.
      * rewrite marks_app, Hm1, Hm2. simpl.
        destruct Hs1 as [_ [_ [_ [_ E]]]]. rewrite E. reflexivity.
      * split; [|split].
        -- apply Forall_app. split; [exact Hu1|].
           apply (reads_globals_same env e1); assumption.
        -- apply (same_globals_trans _ e1); assumption.
        -- intros _. destruct l as [|it' l'].
           ++ simpl in H2. injection H2 as _ _ E. subst e2. exact Hb1.
           ++ apply Hb2. discriminate.
Qed.

(** A whole training pass. *)
Lemma fit_runs (env : Env) :
  g_log env <> 0%nat ->
  exists t env',
    fit env = (EvLBFGS (g_model env) :: EvTqdm (g_steps env) :: t, Ok env') /\
    first_step t =
      match g_steps env with O => None | S _ => Some (0%nat, LBFGS_new (g_model env)) end /\
    marks t = flat_map (iter_marks (g_log env)) (seq 0 (g_steps env)) /\
    Forall (reads_globals (g_alpha env) (g_x_i env) (g_x_b env)) t /\
    same_globals env env' /\ (g_steps env <> 0%nat -> losses_bound env').
Proof.
  intros Hlog.
  destruct (fit_loop_runs (seq 0 (g_steps env)) (LBFGS_new (g_model env)) env Hlog)
    as [t [o' [e' [Hl [Hf [Hm [Hu [Hs Hb]]]]]]]].
  exists t, e'. split.
  - unfold fit.
    apply (bind_ok _ _ [EvLBFGS (g_model env)] tt); [reflexivity|].
    apply (bind_ok _ _ [EvTqdm (g_steps env)] tt); [reflexivity|].
    rewrite <- (app_nil_r t).
    apply (bind_ok _ _ t (o', e')); [exact Hl | reflexivity].
  - split; [rewrite Hf; destruct (g_steps env); reflexivity|].
    split; [exact Hm|]. split; [exact Hu|]. split; [exact Hs|].
    intros Hn. apply Hb. destruct (g_steps env); [congruence | discriminate].
Qed.

End Runs.

(** ** Library calls that raise *)

Section Exec.
Context {L : Lib}.
Variable raises : list Event -> Event -> option LibExn.

Lemma quietly_nil (h : list Event) : quietly raises h [].
Proof.
  intros d1 ev d2 E. destruct d1; discriminate.
Qed.

Lemma quietly_cons (h : list Event) (ev : Event) (d : list Event) :
  raises h ev = None -> quietly raises (h ++ [ev]) d -> quietly raises h (ev :: d).
Proof.
  intros Hev Hd d1 ev' d2 E. destruct d1 as [|a d1]; simpl in E.
  - injection E as E1 E2. subst. rewrite app_nil_r. exact Hev.
  - injection E as E1 E2. subst a.
    specialize (Hd d1 ev' d2 E2). rewrite <- app_assoc in Hd. exact Hd.
Qed.

Lemma quietly_tail (h : list Event) (ev : Event) (d : list Event) :
  quietly raises h (ev :: d) -> raises h ev = None /\ quietly raises (h ++ [ev]) d.
Proof.
  intros H. split.
  - specialize (H [] ev d eq_refl). rewrite app_nil_r in H. exact H.
  - intros d1 ev' d2 E. specialize (H (ev :: d1) ev' d2).
    rewrite <- app_assoc. apply H. simpl. rewrite E. reflexivity.
Qed.


Lemma cut_some :
  forall todo h t e,
    cut raises h todo = Some (t, e) ->
    exists d ev rest,
      todo = d ++ ev :: rest /\ t = h ++ d ++ [ev] /\
      raises (h ++ d) ev = Some e /\ quietly raises h d.
Proof.
  induction todo as [|ev todo IH]; intros h t e H; simpl in H; [discriminate|].
  destruct (raises h ev) as [e0|] eqn:E.
  - injection H as Ht He. subst. exists [], ev, todo.
    rewrite app_nil_r. repeat split; [exact E | apply quietly_nil].
  - destruct (IH _ _ _ H) as [d [ev' [rest [Htodo [Ht [Hr Hq]]]]]].
    exists (ev :: d), ev', rest. subst todo t.
    rewrite <- !app_assoc in *. simpl in *.
    repeat split; [exact Hr | apply quietly_cons; assumption].
Qed.


Lemma cut_quiet : forall todo h, quietly raises h todo -> cut raises h todo = None.
Proof.
  induction todo as [|ev todo IH]; intros h Hq; simpl; [reflexivity|].
  destruct (quietly_tail _ _ _ Hq) as [Ha Hd]. rewrite Ha. apply IH. exact Hd.
Qed.

(** What a run performs is an initial part of what was planned. *)
Lemma exec_prefix {A : Type} (w : W A) :
  exists rest, fst w = fst (exec raises w) ++ rest.
Proof.
  unfold exec. destruct (cut raises [] (fst w)) as [[t e]|] eqn:E.
  - destruct (cut_some _ _ _ _ E) as [d [ev [rest [Hw [Ht _]]]]].
    exists rest. simpl. subst t. rewrite Hw. simpl. rewrite <- app_assoc. reflexivity.
  - exists []. rewrite app_nil_r. reflexivity.
Qed.



End Exec.

(** ** Runs of the notebook *)

Section NotebookRuns.
Context {L : Lib}.

Lemma fit_marks_eq (env : Env) (t : list Event) :
  marks t = flat_map (iter_marks (g_log env)) (seq 0 (g_steps env)) ->
  marks (EvLBFGS (g_model env) :: EvTqdm (g_steps env) :: t) =
  fit_marks (g_steps env) (g_log env).
Proof.
  intros H. unfold fit_marks. simpl. rewrite H. reflexivity.
Qed.

Lemma cell1_setup_runs :
  exists t env0,
    cell1_setup = (t, Ok env0) /\
    marks t = MKan :: sampling_marks /\
    (forall a xi xb, Forall (reads_globals a xi xb) t) /\
    first_step t = None /\
    g_model env0 = KAN_new [2; 2; 1]%nat 5 3 1 (1 # 4) /\
    g_x_i env0 = map (map (fun u => u * 2 - 1)) (torch_rand (np_i ^ 2) 2) /\
    g_x_b env0 = x_b /\ g_steps env0 = 20%nat /\ g_alpha env0 = 1 # 10 /\
    g_log env0 = 1%nat /\ g_pde_loss env0 = None /\ g_bc_loss env0 = None.
Proof.
  eexists. eexists. split; [reflexivity|].
  split; [reflexivity|]. split; [intros a xi xb; repeat constructor|].
  repeat split.
Qed.

Lemma cell3_runs (env : Env) :
  exists env',
    cell3 env =
      ([EvFixSymbolic 0 0 0 "x"; EvFixSymbolic 0 0 1 "x";
        EvFixSymbolic 0 1 0 "x"; EvFixSymbolic 0 1 1 "x";
        EvFixSymbolic 1 0 0 "sin"; EvFixSymbolic 1 1 0 "sin"], Ok env') /\
    same_globals env env' /\
    g_pde_loss env' = g_pde_loss env /\ g_bc_loss env' = g_bc_loss env /\
    g_model env' =
      fix_symbolic (fix_symbolic (fix_symbolic (fix_symbolic (fix_symbolic
        (fix_symbolic (g_model env) 0 0 0 "x") 0 0 1 "x") 0 1 0 "x") 0 1 1 "x")
        1 0 0 "sin") 1 1 0 "sin".
Proof.
  eexists. split; [reflexivity|].
  split; [unfold same_globals; repeat split|].
  repeat split.
Qed.

(** The run of the whole notebook, cell by cell. *)
Lemma notebook_runs :
  exists ts env0 t1 env1 tf env2 t2 env3,
    cell1_setup = (ts, Ok env0) /\ fit env0 = (t1, Ok env1) /\
    cell3 env1 = (tf, Ok env2) /\ fit env2 = (t2, Ok env3) /\
    notebook =
      (ts ++ t1 ++ [EvPlot 10] ++ tf ++ t2 ++ [EvSymbolicFormula 5],
       Ok (symbolic_formula (g_model env3) 5, env3)).
Proof.
  destruct cell1_setup_runs as [ts [env0 [H0 [_ [_ [_ [_ [_ [_ [_ [_ [Hlog _]]]]]]]]]]]].
  assert (Hl0 : g_log env0 <> 0%nat) by (rewrite Hlog; discriminate).
  destruct (fit_runs env0 Hl0) as [t1 [env1 [H1 [_ [_ [_ [Hs1 _]]]]]]].
  destruct (cell3_runs env1) as [env2 [H2 [Hs2 _]]].
  assert (Hl2 : g_log env2 <> 0%nat).
  { destruct Hs2 as [_ [_ [_ [_ E2]]]]. destruct Hs1 as [_ [_ [_ [_ E1]]]].
    rewrite E2, E1. exact Hl0. }
  destruct (fit_runs env2 Hl2) as [t2 [env3 [H3 _]]].
  eexists ts, env0, _, env1, _, env2, _, env3.
  split; [exact H0|]. split; [exact H1|]. split; [exact H2|]. split; [exact H3|].
  unfold notebook.
  apply (bind_ok _ _ ts env0); [exact H0|].
  apply (bind_ok _ _ _ env1); [exact H1|].
  apply (bind_ok _ _ [EvPlot 10] tt); [reflexivity|].
  apply (bind_ok _ _ _ env2); [exact H2|].
  apply (bind_ok _ _ _ env3); [exact H3|].
  apply (bind_ok _ _ [EvSymbolicFormula 5] tt); reflexivity.
Qed.

(** The marks of the planned run, and the batches its calls work on. *)
Lemma notebook_summary :
  exists env0 env3 formula,
    notebook = (fst notebook, Ok (formula, env3)) /\
    snd cell1_setup = Ok env0 /\
    marks (fst notebook) = notebook_marks /\
    Forall (reads_globals (1 # 10) (g_x_i env0) x_b) (fst notebook) /\
    same_globals env0 env3.
Proof.
  destruct notebook_runs
    as [ts [env0 [t1 [env1 [tf [env2 [t2 [env3 [H0 [H1 [H2 [H3 Hn]]]]]]]]]]]].
  destruct cell1_setup_runs
    as [ts' [env0' [H0' [Hm0 [Hu0 [_ [_ [_ [Hxb [Hst [Hal [Hlog _]]]]]]]]]]]].
  rewrite H0 in H0'. injection H0' as Ets Eenv. subst ts' env0'.
  assert (Hl0 : g_log env0 <> 0%nat) by (rewrite Hlog; discriminate).
  destruct (fit_runs env0 Hl0) as [r1 [e1 [F1 [_ [Hm1 [Hu1 [Hs1 _]]]]]]].
  rewrite H1 in F1. injection F1 as Et1 Ee1. subst t1 e1.
  destruct (cell3_runs env1) as [e2 [F2 [Hs2 _]]].
  rewrite H2 in F2. injection F2 as Etf Ee2. subst tf e2.
  assert (Hs02 : same_globals env0 env2) by (apply (same_globals_trans _ env1); assumption).
  assert (Hl2 : g_log env2 <> 0%nat).
  { destruct Hs02 as [_ [_ [_ [_ E]]]]. rewrite E. exact Hl0. }
  destruct (fit_runs env2 Hl2) as [r2 [e3 [F3 [_ [Hm2 [Hu2 [Hs3 _]]]]]]].
  rewrite H3 in F3. injection F3 as Et2 Ee3. subst t2 e3.
  exists env0, env3, (symbolic_formula (g_model env3) 5).
  rewrite Hn. cbv beta iota delta [fst].
  split; [reflexivity|]. split; [rewrite H0; reflexivity|].
  split; [|split].
  - rewrite !marks_app, Hm0.
    rewrite (fit_marks_eq env0 r1 Hm1), (fit_marks_eq env2 r2 Hm2).
    destruct Hs02 as [_ [_ [E1 [_ E2]]]]. rewrite E1, E2, Hst, Hlog.
    reflexivity.
  - rewrite <- Hxb, <- Hal.
    apply Forall_app. split; [apply Hu0|].
    apply Forall_app. split; [constructor; [split; exact I|]; constructor; [split; exact I|]; exact Hu1|].
    apply Forall_app. split; [repeat constructor|].
    apply Forall_app. split; [repeat constructor|].
    apply Forall_app. split; [|repeat constructor].
    constructor; [split; exact I|]. constructor; [split; exact I|].
    apply (reads_globals_same env0 env2); assumption.
  - apply (same_globals_trans _ env2); [exact Hs02 | exact Hs3].
Qed.

End NotebookRuns.

(** ** The definitions at work *)

Example transpose_rows :
  transpose [[1; 2; 3]; [4; 5; 6]] = [[1; 4]; [2; 5]; [3; 6]].
Proof. reflexivity. Qed.

Example helper_pairs : helper [1; 2] [3; 4] = [[1; 3]; [2; 4]].
Proof. reflexivity. Qed.

Example linspace_five : teq1 (linspace (-1) 1 5) [-1; -(1 # 2); 0; 1 # 2; 1].
Proof. apply teqb1_sound. vm_compute. reflexivity. Qed.

Example meshgrid_small :
  meshgrid_ij [1; 2] [3; 4; 5] = ([[1; 1; 1]; [2; 2; 2]], [[3; 4; 5]; [3; 4; 5]]).
Proof. reflexivity. Qed.

Example x_b_ends :
  teq2 [nth 0 x_b []; nth 20 x_b []; nth 21 x_b []; nth 42 x_b []; nth 83 x_b []]
       [[-1; -1]; [-1; 1]; [1; -1]; [-1; -1]; [1; 1]].
Proof. apply teqb2_sound. vm_compute. reflexivity. Qed.

Example diagonal_square : diagonal [[1; 2]; [3; 4]] = [1; 4].
Proof. reflexivity. Qed.

Example sum_dim0_rows : sum_dim0 [[1; 2]; [3; 4]; [5; 6]] = [1 + (3 + 5); 2 + (4 + 6)].
Proof. reflexivity. Qed.

Example stages_of_notebook_marks :
  stages notebook_marks = [Sample; Train; FixSymbolic; Train; Extract].
Proof. reflexivity. Qed.

(** A training pass on the small instance: 150 library calls, two closure
    evaluations in the first step and one in each later step. *)
Example demo_fit_marks :
  marks (fst (@fit demo_lib demo_env)) = fit_marks 20 1 /\
  length (fst (@fit demo_lib demo_env)) = 150%nat.
Proof. split; vm_compute; reflexivity. Qed.

(** The same pass when the l2 report of iteration 3 raises: the run ends
    there, in that exception. *)
Example demo_l2_raises :
  snd (exec demo_raises (@fit demo_lib demo_env)) =
    Raise (@LibraryError demo_lib 7%nat) /\
  marks (fst (exec demo_raises (@fit demo_lib demo_env))) =
    [MLbfgs; MTqdm 20; MUpdateGrid 0; MStep 0; ML2 0; MDescribe 0;
     MStep 1; ML2 1; MDescribe 1; MStep 2; ML2 2; MDescribe 2; MStep 3; ML2 3].
Proof. split; vm_compute; reflexivity. Qed.

(** ** The small instance keeps the promises of the libraries *)

Lemma demo_jacobian_shape : @jacobian_shape demo_lib.
Proof.
  intros f x b w [Hb Hw]. split.
  - apply length_map.
  - apply Forall_forall. intros blk Hin.
    apply in_map_iff in Hin. destruct Hin as [v [E _]]. subst blk.
    split; [rewrite length_map; exact Hb|].
    apply Forall_forall. intros r Hr.
    apply in_map_iff in Hr. destruct Hr as [r0 [E Hr0]]. subst r.
    rewrite length_map. rewrite Forall_forall in Hw. apply Hw. exact Hr0.
Qed.

Lemma demo_forward_shape (m : @Model demo_lib) : @forward_shape demo_lib m.
Proof.
  intros x. split.
  - apply length_map.
  - apply Forall_forall. intros r Hr.
    apply in_map_iff in Hr. destruct Hr as [p [E _]]. subst r. reflexivity.
Qed.



(** ** The loss of the closure *)




(** ** The interior batch *)






(** ** Grid updates *)

Lemma grid_update_iters_app (a b : list Mark) :
  grid_update_iters (a ++ b) = grid_update_iters a ++ grid_update_iters b.
Proof.
  unfold grid_update_iters. apply flat_map_app.
Qed.

Lemma grid_update_iters_loop (lg : nat) (l : list nat) :
  grid_update_iters (flat_map (iter_marks lg) l) = filter grid_update_due l.
Proof.
  induction l as [|it l IH]; simpl; [reflexivity|].
  rewrite grid_update_iters_app, IH. unfold iter_marks.
  rewrite !grid_update_iters_app.
  destruct (grid_update_due it); destruct (Nat.eqb (Nat.modulo it lg) 0); reflexivity.
Qed.

Lemma grid_update_due_spec (it : nat) :
  grid_update_due it = true <-> (it mod 5 = 0 /\ it < 50)%nat.
Proof.
  unfold grid_update_due. rewrite andb_true_iff, Nat.eqb_eq, Nat.ltb_lt. reflexivity.
Qed.

Lemma update_events_in_marks {L : Lib} (t : list Event) (it : nat) (x : Tensor2) :
  In (EvUpdateGrid it x) t -> In it (grid_update_iters (marks t)).
Proof.
  induction t as [|ev t IH]; simpl; [trivial|]. intros [E|Hin].
  - subst ev. simpl. left. reflexivity.
  - unfold marks. simpl. fold (marks t).
    rewrite grid_update_iters_app. apply in_or_app. right. apply IH. exact Hin.
Qed.

(** C4.  In a run of the training loop the grid is updated from the
    interior batch in exactly the iterations whose index is a multiple of 5
    and below 50, in increasing order; with steps = 20 these are the
    iterations 0, 5, 10 and 15, in either pass of the notebook. *)
Theorem grid_updates_every_fifth {L : Lib} (env : Env) :
  g_log env <> 0%nat ->
  exists t env',
    fit env = (t, Ok env') /\
    grid_update_iters (marks t) = filter grid_update_due (seq 0 (g_steps env)) /\
    (forall it, In it (grid_update_iters (marks t)) <->
                (it < g_steps env /\ it mod 5 = 0 /\ it < 50)%nat) /\
    (forall it x, In (EvUpdateGrid it x) t ->
                  x = g_x_i env /\ (it < g_steps env /\ it mod 5 = 0 /\ it < 50)%nat) /\
    (g_steps env = 20%nat -> grid_update_iters (marks t) = [0; 5; 10; 15]%nat) /\
    grid_update_iters (marks (fst notebook)) = [0; 5; 10; 15; 0; 5; 10; 15]%nat.
Proof.
  intros Hlog.
  destruct (fit_runs env Hlog) as [t [env' [Hf [_ [Hm [Hu _]]]]]].
  assert (Hg : grid_update_iters
                 (marks (EvLBFGS (g_model env) :: EvTqdm (g_steps env) :: t)) =
               filter grid_update_due (seq 0 (g_steps env))).
  { rewrite (fit_marks_eq env t Hm). unfold fit_marks. simpl.
    apply grid_update_iters_loop. }
  assert (Hiff : forall it,
             In it (filter grid_update_due (seq 0 (g_steps env))) <->
             (it < g_steps env /\ it mod 5 = 0 /\ it < 50)%nat).
  { intros it. rewrite filter_In, in_seq, grid_update_due_spec. lia. }
  eexists. exists env'. split; [exact Hf|]. split; [exact Hg|].
  split; [intros it; rewrite Hg; apply Hiff|].
  split; [|split].
  - intros it x Hin. split.
    + assert (HU : Forall (reads_globals (g_alpha env) (g_x_i env) (g_x_b env))
                     (EvLBFGS (g_model env) :: EvTqdm (g_steps env) :: t))
        by (constructor; [split; exact I|]; constructor; [split; exact I|]; exact Hu).
      rewrite Forall_forall in HU. exact (proj1 (HU _ Hin)).
    + apply Hiff. rewrite <- Hg. apply (update_events_in_marks _ it x). exact Hin.
  - intros H20. rewrite Hg, H20. reflexivity.
  - destruct notebook_summary as [e0 [e3 [f [_ [_ [Hnm _]]]]]].
    rewrite Hnm. reflexivity.
Qed.

Lemma grid_updates_every_fifth_witness :
  exists t env',
    @fit demo_lib demo_env = (t, Ok env') /\
    grid_update_iters (marks t) = [0; 5; 10; 15]%nat.
Proof.
  destruct (@grid_updates_every_fifth demo_lib demo_env)
    as [t [env' [H1 [_ [_ [_ [H2 _]]]]]]].
  - discriminate.
  - exists t, env'. split; [exact H1 | apply H2; reflexivity].
Defined.

(** ** What the training loop mutates *)




(** ** The order of the stages *)

(** C6.  The notebook samples the batches, runs 20 optimizer steps with
    the periodic grid update, fixes the four activations of the first layer
    to 'x' and the two of the second layer to 'sin', runs the same 20
    steps again and then extracts the formula: the calls of a run with no
    exception are exactly these, in this order, and the calls of any run
    are an initial part of them. *)
Theorem notebook_stage_order {L : Lib}
    (raises : list Event -> Event -> option LibExn) :
  marks (fst notebook) = notebook_marks /\
  (exists v, snd notebook = Ok v) /\
  (exists rest, marks (fst (exec raises notebook)) ++ rest = notebook_marks) /\
  notebook_marks =
    MKan :: sampling_marks ++ fit_marks 20 1 ++ [MPlot 10] ++ fix_marks ++
    fit_marks 20 1 ++ [MFormula 5] /\
  step_iters (fit_marks 20 1) = seq 0 20 /\
  fix_marks =
    [MFix 0 0 0 "x"; MFix 0 0 1 "x"; MFix 0 1 0 "x"; MFix 0 1 1 "x";
     MFix 1 0 0 "sin"; MFix 1 1 0 "sin"] /\
  stages notebook_marks = [Sample; Train; FixSymbolic; Train; Extract].
Proof.
  destruct notebook_summary as [e0 [e3 [f [Hn [_ [Hm _]]]]]].
  split; [exact Hm|].
  split; [exists (f, e3); rewrite Hn; reflexivity|].
  split.
  { destruct (exec_prefix raises notebook) as [rest Hrest].
    exists (marks rest). rewrite <- marks_app, <- Hrest. exact Hm. }
  repeat split.
Qed.

(** ** Exceptions *)



(** ** The optimizer of each pass *)




(** * Further properties of the notebook's code *)

(** ** Sampling *)

Lemma helper_map2 (Xv Yv : Tensor1) :
  helper Xv Yv = map2 (fun x y => [x; y]) Xv Yv.
Proof.
  unfold helper. simpl. revert Yv.
  induction Xv as [|x Xv IH]; intros [|y Yv]; simpl; try reflexivity.
  f_equal. apply IH.
Qed.

Lemma map2_app {A B C : Type} (f : A -> B -> C) (a1 a2 : list A) (b1 b2 : list B) :
  length a1 = length b1 ->
  map2 f (a1 ++ a2) (b1 ++ b2) = map2 f a1 b1 ++ map2 f a2 b2.
Proof.
  revert b1. induction a1 as [|x a1 IH]; intros [|y b1] H; simpl in *;
    try discriminate; [reflexivity|].
  f_equal. apply IH. now injection H.
Qed.

Lemma map2_const_l {A B C : Type} (f : A -> B -> C) (c : A) (l : list B) :
  map2 f (map (fun _ => c) l) l = map (f c) l.
Proof.
  induction l as [|y l IH]; simpl; [reflexivity|]. now rewrite IH.
Qed.

Lemma map2_const_r {A B C : Type} (f : A -> B -> C) (c : B) (l : list A) :
  map2 f l (map (fun _ => c) l) = map (fun x => f x c) l.
Proof.
  induction l as [|x l IH]; simpl; [reflexivity|]. now rewrite IH.
Qed.

(** X1.  [helper] pairs its two vectors coordinate by coordinate: for
    vectors of one length n it returns n rows, the i-th being
    [Xv[i], Yv[i]]. *)
Theorem helper_pairs_coordinates (Xv Yv : Tensor1) :
  length Xv = length Yv ->
  length (helper Xv Yv) = length Xv /\
  forall i, (i < length Xv)%nat ->
            nth i (helper Xv Yv) [] = [nth i Xv 0; nth i Yv 0].
Proof.
  rewrite helper_map2. revert Yv.
  induction Xv as [|x Xv IH]; intros [|y Yv] H; simpl in *; try discriminate.
  - split; [reflexivity|]. intros i Hi. lia.
  - injection H as H. destruct (IH Yv H) as [Hl Hn].
    split; [now rewrite Hl|].
    intros [|i] Hi; [reflexivity|]. apply Hn. lia.
Qed.

Lemma helper_pairs_coordinates_witness :
  length (helper [1; 2; 3] [4; 5; 6]) = 3%nat /\
  nth 1 (helper [1; 2; 3] [4; 5; 6]) [] = [2; 5].
Proof.
  destruct (helper_pairs_coordinates [1; 2; 3] [4; 5; 6]) as [H1 H2].
  - reflexivity.
  - split; [exact H1|]. apply (H2 1%nat). simpl. lia.
Defined.

Lemma mesh_points_flat (xs ys : Tensor1) :
  mesh_points (fst (meshgrid_ij xs ys)) (snd (meshgrid_ij xs ys)) =
  flat_map (fun x => map (fun y => [x; y]) ys) xs.
Proof.
  unfold mesh_points, reshape_flat.
  fold (helper (concat (fst (meshgrid_ij xs ys))) (concat (snd (meshgrid_ij xs ys)))).
  rewrite helper_map2. unfold meshgrid_ij. cbv beta iota delta [fst snd].
  induction xs as [|x xs IH]; [reflexivity|].
  cbn [map concat flat_map].
  rewrite map2_app by (now rewrite length_map).
  rewrite IH, map2_const_l. reflexivity.
Qed.

(** X2.  In the 'mesh' mode the interior batch consists of all the points
    of the mesh, row by row: the point (xs[i], ys[j]) for every i and, for
    each i, every j; len(xs) * len(ys) points in all. *)
Theorem mesh_points_of_meshgrid (xs ys : Tensor1) :
  mesh_points (fst (meshgrid_ij xs ys)) (snd (meshgrid_ij xs ys)) =
    flat_map (fun x => map (fun y => [x; y]) ys) xs /\
  length (mesh_points (fst (meshgrid_ij xs ys)) (snd (meshgrid_ij xs ys))) =
    (length xs * length ys)%nat.
Proof.
  split; [apply mesh_points_flat|]. rewrite mesh_points_flat.
  induction xs as [|x xs IH]; [reflexivity|].
  cbn [flat_map]. rewrite length_app, length_map, IH. reflexivity.
Qed.



Lemma last_map {A B : Type} (f : A -> B) (l : list A) (d : A) (d' : B) :
  l <> [] -> last (map f l) d' = f (last l d).
Proof.
  induction l as [|a l IH]; intros Hne; [congruence|].
  destruct l as [|b l]; [reflexivity|].
  change (last (f a :: map f (b :: l)) d') with (last (map f (b :: l)) d').
  change (last (a :: b :: l) d) with (last (b :: l) d).
  apply IH. discriminate.
Qed.

Lemma boundary_of_edges (xs ys : Tensor1) :
  xs <> [] -> ys <> [] ->
  boundary_of (fst (meshgrid_ij xs ys)) (snd (meshgrid_ij xs ys)) =
    map (fun y => [hd 0 xs; y]) ys ++ map (fun y => [last xs 0; y]) ys ++
    map (fun x => [x; hd 0 ys]) xs ++ map (fun x => [x; last ys 0]) xs.
Proof.
  intros Hx Hy.
  unfold boundary_of, meshgrid_ij. cbv beta iota delta [fst snd].
    rewrite !helper_map2.
    assert (R1 : row_first (map (fun x => map (fun _ : Q => x) ys) xs) =
                 map (fun _ => hd 0 xs) ys).
    { destruct xs as [|x0 xs']; [congruence | reflexivity]. }
    assert (R2 : row_first (map (fun _ : Q => ys) xs) = ys).
    { destruct xs as [|x0 xs']; [congruence | reflexivity]. }
    assert (R3 : row_last (map (fun x => map (fun _ : Q => x) ys) xs) =
                 map (fun _ => last xs 0) ys).
    { unfold row_last. apply (last_map (fun x => map (fun _ : Q => x) ys) xs 0 []).
      exact Hx. }
    assert (C1 : col_first (map (fun x => map (fun _ : Q => x) ys) xs) = xs).
    { unfold col_first. rewrite map_map. rewrite <- (map_id xs) at 2.
      apply map_ext. intros x. destruct ys as [|y0 ys']; [congruence | reflexivity]. }
    assert (C2 : col_first (map (fun _ : Q => ys) xs) = map (fun _ => hd 0 ys) xs).
    { unfold col_first. rewrite map_map. apply map_ext. intros x.
      destruct ys as [|y0 ys']; [congruence | reflexivity]. }
    assert (C3 : col_last (map (fun _ : Q => ys) xs) = map (fun _ => last ys 0) xs).
    { unfold col_last. rewrite map_map. reflexivity. }
    rewrite R1, R2, R3, C1, C2, C3.
    rewrite !map2_const_l, !map2_const_r. reflexivity.
Qed.

(** X4.  For the mesh of any two non-empty coordinate vectors the boundary
    batch is, in this order, the edge x = xs[0], the edge x = xs[-1], the
    edge y = ys[0] and the edge y = ys[-1]: 2 * len(ys) + 2 * len(xs) rows. *)
Theorem boundary_of_meshgrid (xs ys : Tensor1) :
  xs <> [] -> ys <> [] ->
  boundary_of (fst (meshgrid_ij xs ys)) (snd (meshgrid_ij xs ys)) =
    map (fun y => [hd 0 xs; y]) ys ++ map (fun y => [last xs 0; y]) ys ++
    map (fun x => [x; hd 0 ys]) xs ++ map (fun x => [x; last ys 0]) xs /\
  length (boundary_of (fst (meshgrid_ij xs ys)) (snd (meshgrid_ij xs ys))) =
    (2 * length ys + 2 * length xs)%nat /\
  x_b = boundary_of X Y.
Proof.
  intros Hx Hy. pose proof (boundary_of_edges xs ys Hx Hy) as H.
  split; [exact H|]. split; [|reflexivity].
  rewrite H, !length_app, !length_map. lia.
Qed.

Lemma boundary_of_meshgrid_witness :
  boundary_of (fst (meshgrid_ij [1; 2; 3] [4; 5])) (snd (meshgrid_ij [1; 2; 3] [4; 5])) =
    [[1; 4]; [1; 5]; [3; 4]; [3; 5]; [1; 4]; [2; 4]; [3; 4]; [1; 5]; [2; 5]; [3; 5]].
Proof.
  destruct (boundary_of_meshgrid [1; 2; 3] [4; 5]) as [H _].
  - discriminate.
  - discriminate.
  - rewrite H. reflexivity.
Defined.

Lemma count_point_app (p : Tensor1) (a b : Tensor2) :
  count_point p (a ++ b) = (count_point p a + count_point p b)%nat.
Proof.
  unfold count_point. rewrite filter_app, length_app. reflexivity.
Qed.

Lemma count_point_in (p : Tensor1) (t : Tensor2) :
  In p t -> (1 <= count_point p t)%nat.
Proof.
  unfold count_point. induction t as [|q t IH]; simpl; [contradiction|].
  intros [E|Hin].
  - subst q. rewrite (teqb1_complete p p (teq1_refl p)). simpl. lia.
  - specialize (IH Hin). destruct (teqb1 p q); simpl; lia.
Qed.

Lemma last_in {A : Type} (l : list A) (d : A) : l <> [] -> In (last l d) l.
Proof.
  induction l as [|a l IH]; intros Hne; [congruence|].
  destruct l as [|b l]; [left; reflexivity|].
  right. apply IH. discriminate.
Qed.

Lemma hd_in {A : Type} (l : list A) (d : A) : l <> [] -> In (hd d l) l.
Proof.
  destruct l; [congruence | left; reflexivity].
Qed.

(** X5.  Whatever the mesh, each corner of it is sampled at least twice
    in the boundary batch, once by each of the two edges that meet there. *)
Theorem boundary_corners_repeated (xs ys : Tensor1) :
  xs <> [] -> ys <> [] ->
  let b := boundary_of (fst (meshgrid_ij xs ys)) (snd (meshgrid_ij xs ys)) in
  Nat.le 2 (count_point [hd 0 xs; hd 0 ys] b) /\
  Nat.le 2 (count_point [hd 0 xs; last ys 0] b) /\
  Nat.le 2 (count_point [last xs 0; hd 0 ys] b) /\
  Nat.le 2 (count_point [last xs 0; last ys 0] b).
Proof.
  intros Hx Hy b. unfold b.
  rewrite (boundary_of_edges xs ys Hx Hy).
  rewrite !count_point_app.
  pose proof (@hd_in Q xs 0 Hx) as Hhx. pose proof (@hd_in Q ys 0 Hy) as Hhy.
  pose proof (@last_in Q xs 0 Hx) as Hlx. pose proof (@last_in Q ys 0 Hy) as Hly.
  assert (E1 : forall c y, In y ys ->
                 Nat.le 1 (count_point [c; y] (map (fun y => [c; y]) ys))).
  { intros c y Hin. apply count_point_in. apply in_map_iff. exists y. split; trivial. }
  assert (E2 : forall c x, In x xs ->
                 Nat.le 1 (count_point [x; c] (map (fun x => [x; c]) xs))).
  { intros c x Hin. apply count_point_in. apply in_map_iff. exists x. split; trivial. }
  pose proof (E1 (hd 0 xs) _ Hhy). pose proof (E1 (hd 0 xs) _ Hly).
  pose proof (E1 (last xs 0) _ Hhy). pose proof (E1 (last xs 0) _ Hly).
  pose proof (E2 (hd 0 ys) _ Hhx). pose proof (E2 (hd 0 ys) _ Hlx).
  pose proof (E2 (last ys 0) _ Hhx). pose proof (E2 (last ys 0) _ Hlx).
  repeat split; lia.
Qed.

Lemma boundary_corners_repeated_witness :
  Nat.le 2 (count_point [1; 4]
              (boundary_of (fst (meshgrid_ij [1; 2; 3] [4; 5]))
                           (snd (meshgrid_ij [1; 2; 3] [4; 5])))).
Proof.
  destruct (boundary_corners_repeated [1; 2; 3] [4; 5]) as [H _].
  - discriminate.
  - discriminate.
  - exact H.
Defined.

(** ** Derivatives and residuals *)

(** X6.  [batch_jacobian] returns one Jacobian per batch element: for a
    batch of b >= 1 rows of width w and a function whose value on it is a
    non-empty tensor with k >= 1 columns, the result has b blocks of k rows
    of width w, provided [autograd.functional.jacobian] returns the axes
    (output, batch, width). *)
Theorem batch_jacobian_shape {L : Lib} (func : Tensor2 -> Tensor2) (x : Tensor2)
    (b w n k : nat) :
  jacobian_shape ->
  has_shape2 (S b) w x ->
  has_shape2 (S n) (S k) (func x) ->
  length (batch_jacobian func x) = S b /\
  Forall (has_shape2 (S k) w) (batch_jacobian func x).
Proof.
  intros HJ Hx Hf. unfold batch_jacobian.
  assert (Hout : length (sum_dim0 (func x)) = S k).
  { destruct Hf as [Hn Hk]. apply sum_dim0_length; [|exact Hk].
    intros E. rewrite E in Hn. discriminate. }
  destruct (HJ (fun x0 => sum_dim0 (func x0)) x (S b) w Hx) as [Hlen Hblk].
  rewrite Hout in Hlen.
  destruct (transpose_shape (fun r : list Q => length r = w) (S b)
              (jacobian (fun x0 => sum_dim0 (func x0)) x)) as [Hl Hcols].
  - intros E. rewrite E in Hlen. discriminate.
  - eapply Forall_impl; [|exact Hblk]. intros blk [H1 H2]. split; assumption.
  - split; [exact Hl|]. rewrite Hlen in Hcols.
    eapply Forall_impl; [|exact Hcols]. intros c [H1 H2]. split; assumption.
Qed.

Lemma batch_jacobian_shape_witness :
  length (@batch_jacobian demo_lib (@forward demo_lib (1 # 4)) (g_x_i demo_env)) = 3%nat.
Proof.
  destruct (@batch_jacobian_shape demo_lib (@forward demo_lib (1 # 4))
              (g_x_i demo_env) 2 2 2 0) as [H _].
  - exact demo_jacobian_shape.
  - split; [reflexivity | repeat constructor].
  - split; [reflexivity | repeat constructor].
  - exact H.
Defined.













(** ** The calls of a training pass *)

Section CallSequences.
Context {L : Lib}.

Lemma last_cons {A : Type} (a d : A) (l : list A) : last (a :: l) d = last l a.
Proof.
  revert a d. induction l as [|b l IH]; intros a d; [reflexivity|].
  change (last (a :: b :: l) d) with (last (b :: l) d).
  rewrite (IH b d), (IH b a). reflexivity.
Qed.

Lemma closure_calls (env : Env) :
  exists env',
    closure env =
      (closure_block (g_x_i env) (g_x_b env)
         (weighted (g_alpha env)
            (pde_loss_of (zero_grad (g_model env)) (g_x_i env),
             bc_loss_of (zero_grad (g_model env)) (g_x_b env))),
       Ok (weighted (g_alpha env)
             (pde_loss_of (zero_grad (g_model env)) (g_x_i env),
              bc_loss_of (zero_grad (g_model env)) (g_x_b env)), env')) /\
    same_globals env env' /\
    g_pde_loss env' = Some (pde_loss_of (zero_grad (g_model env)) (g_x_i env)) /\
    g_bc_loss env' = Some (bc_loss_of (zero_grad (g_model env)) (g_x_b env)).
Proof.
  destruct (closure_runs env) as [env' [Hc H]]. exists env'. split; [exact Hc | exact H].
Qed.

Lemma lbfgs_iterate_calls (fuel : nat) :
  forall o loss env p0,
    g_pde_loss env = Some (fst p0) -> g_bc_loss env = Some (snd p0) ->
    exists evals o' env',
      lbfgs_iterate fuel o loss env =
        (flat_map (fun r => closure_block (g_x_i env) (g_x_b env)
                              (weighted (g_alpha env) r)) evals,
         Ok (o', env')) /\
      (length evals <= fuel)%nat /\
      Forall (is_eval (g_x_i env) (g_x_b env)) evals /\
      same_globals env env' /\
      g_pde_loss env' = Some (fst (last evals p0)) /\
      g_bc_loss env' = Some (snd (last evals p0)).
Proof.
  induction fuel as [|fuel IH]; intros o loss env p0 Hp Hb; rewrite lbfgs_iterate_eq;
    destruct (lbfgs_update o (g_model env) loss) as [[o1 m1] again].
  - exists [], o1, (set_model env m1).
    split; [reflexivity|]. split; [apply Nat.le_refl|]. split; [constructor|].
    split; [apply same_globals_set_model|]. split; assumption.
  - destruct again.
    + destruct (closure_calls (set_model env m1)) as [e2 [Hc [Hs [Hp2 Hb2]]]].
      set (p1 := (pde_loss_of (zero_grad m1) (g_x_i env),
                  bc_loss_of (zero_grad m1) (g_x_b env))) in *.
      destruct (IH o1 (weighted (g_alpha env) p1) e2 p1 Hp2 Hb2)
        as [evals [o' [e3 [Hi [Hl [He [Hs3 [Hp3 Hb3]]]]]]]].
      assert (Hs2 : same_globals env e2).
      { apply (same_globals_trans env (set_model env m1) e2);
          [apply same_globals_set_model | exact Hs]. }
      destruct Hs2 as [E1 [E2 [E3 [E4 E5]]]].
      rewrite E1, E2, E4 in Hi. rewrite E1, E2 in He.
      exists (p1 :: evals), o', e3. split.
      * apply (bind_ok _ _ _ (weighted (g_alpha env) p1, e2)); [exact Hc | exact Hi].
      * split; [simpl; lia|].
        split; [constructor; [exists (zero_grad m1); reflexivity | exact He]|].
        split.
        { apply (same_globals_trans env e2 e3); [|exact Hs3].
          unfold same_globals. repeat split; assumption. }
        rewrite last_cons. split; assumption.
    + exists [], o1, (set_model env m1).
      split; [reflexivity|]. split; [apply Nat.le_0_l|]. split; [constructor|].
      split; [apply same_globals_set_model|]. split; assumption.
Qed.

Lemma lbfgs_step_calls (it : nat) (o : Opt) (env : Env) :
  exists evals o' env',
    lbfgs_step it o env =
      (step_calls (g_alpha env) (g_x_i env) (g_x_b env) it o evals, Ok (o', env')) /\
    (1 <= length evals <= S lbfgs_max_eval)%nat /\
    Forall (is_eval (g_x_i env) (g_x_b env)) evals /\
    same_globals env env' /\
    g_pde_loss env' = Some (fst (last evals (0, 0))) /\
    g_bc_loss env' = Some (snd (last evals (0, 0))).
Proof.
  destruct (closure_calls env) as [e2 [Hc [Hs [Hp2 Hb2]]]].
  set (p1 := (pde_loss_of (zero_grad (g_model env)) (g_x_i env),
              bc_loss_of (zero_grad (g_model env)) (g_x_b env))) in *.
  destruct (lbfgs_iterate_calls lbfgs_max_eval o (weighted (g_alpha env) p1) e2 p1 Hp2 Hb2)
    as [evals [o' [e3 [Hi [Hl [He [Hs3 [Hp3 Hb3]]]]]]]].
  destruct Hs as [E1 [E2 [E3 [E4 E5]]]].
  rewrite E1, E2, E4 in Hi. rewrite E1, E2 in He.
  exists (p1 :: evals), o', e3. split.
  - unfold lbfgs_step, step_calls.
    apply (bind_ok _ _ [EvStep it o] tt); [reflexivity|].
    apply (bind_ok _ _ _ (weighted (g_alpha env) p1, e2)); [exact Hc | exact Hi].
  - split; [simpl; lia|].
    split; [constructor; [exists (zero_grad (g_model env)); reflexivity | exact He]|].
    split.
    { apply (same_globals_trans env e2 e3); [|exact Hs3].
      unfold same_globals. repeat split; assumption. }
    rewrite last_cons. split; assumption.
Qed.

Lemma fit_iter_calls (it : nat) (o : Opt) (env : Env) :
  g_log env <> 0%nat ->
  exists row o' env',
    fit_iter it (o, env) =
      (iter_calls (g_alpha env) (g_x_i env) (g_x_b env) (g_log env) it row,
       Ok (o', env')) /\
    row_opt row = o /\ row_ok (g_x_i env) (g_x_b env) row /\
    same_globals env env'.
Proof.
  intros Hlog.
  set (env1 := if grid_update_due it
               then set_model env (update_grid_from_samples (g_model env) (g_x_i env))
               else env).
  assert (Hs1 : same_globals env env1).
  { unfold env1. destruct (grid_update_due it);
      [apply same_globals_set_model | apply same_globals_refl]. }
  destruct (lbfgs_step_calls it o env1) as [evals [o' [e2 [Hst [Hl [He [Hs2 [Hp Hb]]]]]]]].
  assert (Hs : same_globals env e2) by (apply (same_globals_trans _ env1); assumption).
  destruct Hs1 as [A1 [A2 [A3 [A4 A5]]]].
  rewrite A1, A2, A4 in Hst. rewrite A1, A2 in He.
  destruct Hs as [B1 [B2 [B3 [B4 B5]]]].
  exists {| row_opt := o; row_evals := evals;
            row_l2 := mean (tsquare (tsub (forward (g_model e2) (g_x_i env))
                                          (sol_fun (g_x_i env)))) |}, o', e2.
  split; [|split; [reflexivity|split]].
  - unfold fit_iter, iter_calls. cbn [row_opt row_evals row_l2].
    apply (bind_ok _ _ [] (Nat.modulo it 5)); [reflexivity|].
    change (Nat.eqb (Nat.modulo it 5) 0 && Nat.ltb it 50) with (grid_update_due it).
    apply (bind_ok _ _ (if grid_update_due it then [EvUpdateGrid it (g_x_i env)] else []) env1).
    { unfold env1. destruct (grid_update_due it); reflexivity. }
    apply (bind_ok _ _ _ (o', e2)); [exact Hst|].
    rewrite Hp, Hb, B1, B5.
    apply (bind_ok _ _ [] (fst (last evals (0, 0)))); [reflexivity|].
    apply (bind_ok _ _ [] (snd (last evals (0, 0)))); [reflexivity|].
    apply (bind_ok _ _ [EvL2 it (g_x_i env)] tt); [reflexivity|].
    apply (bind_ok _ _ [] (Nat.modulo it (g_log env))).
    { unfold py_mod. destruct (Nat.eqb (g_log env) 0) eqn:E; [|reflexivity].
      apply Nat.eqb_eq in E. contradiction. }
    destruct (Nat.eqb (Nat.modulo it (g_log env)) 0); reflexivity.
  - split; [exact Hl|]. split; [exact He|].
    exists (g_model e2). reflexivity.
  - unfold same_globals. repeat split; assumption.
Qed.

Lemma fit_loop_calls (k : nat) :
  forall s o env,
    g_log env <> 0%nat ->
    exists rows o' env',
      for_each (seq s k) fit_iter (o, env) =
        (pass_calls (g_alpha env) (g_x_i env) (g_x_b env) (g_log env) s rows,
         Ok (o', env')) /\
      length rows = k /\ Forall (row_ok (g_x_i env) (g_x_b env)) rows /\
      same_globals env env' /\
      match rows with r :: _ => row_opt r = o | [] => True end.
Proof.
  induction k as [|k IH]; intros s o env Hlog.
  - exists [], o, env. repeat split; try constructor.
  - destruct (fit_iter_calls s o env Hlog) as [row [o1 [e1 [H1 [Ho [Hr Hs1]]]]]].
    assert (Hlog1 : g_log e1 <> 0%nat).
    { destruct Hs1 as [_ [_ [_ [_ E]]]]. rewrite E. exact Hlog. }
    destruct (IH (S s) o1 e1 Hlog1) as [rows [o2 [e2 [H2 [Hl [Hrs [Hs2 _]]]]]]].
    pose proof Hs1 as [E1 [E2 [E3 [E4 E5]]]].
    rewrite E1, E2, E4, E5 in H2. rewrite E1, E2 in Hrs.
    exists (row :: rows), o2, e2. split.
    + change (for_each (seq s (S k)) fit_iter (o, env))
        with (bind (fit_iter s (o, env)) (for_each (seq (S s) k) fit_iter)).
      apply (bind_ok _ _ _ (o1, e1)); [exact H1 | exact H2].
    + split; [simpl; now rewrite Hl|].
      split; [constructor; assumption|].
      split; [apply (same_globals_trans _ e1); assumption | exact Ho].
Qed.

Lemma fit_calls (env : Env) :
  g_log env <> 0%nat ->
  exists rows env',
    fit env =
      (EvLBFGS (g_model env) :: EvTqdm (g_steps env) ::
       pass_calls (g_alpha env) (g_x_i env) (g_x_b env) (g_log env) 0 rows,
       Ok env') /\
    length rows = g_steps env /\ Forall (row_ok (g_x_i env) (g_x_b env)) rows /\
    same_globals env env' /\
    match rows with r :: _ => row_opt r = LBFGS_new (g_model env) | [] => True end.
Proof.
  intros Hlog.
  destruct (fit_loop_calls (g_steps env) 0 (LBFGS_new (g_model env)) env Hlog)
    as [rows [o' [e' [Hl [Hn [Hr [Hs Ho]]]]]]].
  exists rows, e'.
  split; [|split; [exact Hn | split; [exact Hr | split; [exact Hs | exact Ho]]]].
  unfold fit.
  apply (bind_ok _ _ [EvLBFGS (g_model env)] tt); [reflexivity|].
  apply (bind_ok _ _ [EvTqdm (g_steps env)] tt); [reflexivity|].
  rewrite <- (app_nil_r (pass_calls _ _ _ _ _ _)).
  apply (bind_ok _ _ _ (o', e')); [exact Hl | reflexivity].
Qed.

End CallSequences.







Lemma grads_zeroed_blocks {L : Lib} (a : Q) (xi xb : Tensor2) (evals : list (Q * Q))
    (rest : list Event) :
  (forall z, grads_zeroed z rest) ->
  forall z, grads_zeroed z
              (flat_map (fun r => closure_block xi xb (weighted a r)) evals ++ rest).
Proof.
  intros Hrest. induction evals as [|r evals IH]; intros z; [apply Hrest|].
  simpl. split; [reflexivity | apply IH].
Qed.

Lemma grads_zeroed_pass {L : Lib} (a : Q) (xi xb : Tensor2) (lg : nat)
    (rows : list IterRow) :
  forall it z, grads_zeroed z (pass_calls a xi xb lg it rows).
Proof.
  induction rows as [|r rows IH]; intros it z; [exact I|].
  cbn [pass_calls]. unfold iter_calls, step_calls.
  rewrite <- !app_assoc.
  assert (H : forall z0, grads_zeroed z0
            ((EvStep it (row_opt r) ::
              flat_map (fun r0 => closure_block xi xb (weighted a r0)) (row_evals r)) ++
             [EvL2 it xi] ++
             (if Nat.eqb (Nat.modulo it lg) 0
              then [EvSetDescription it (fst (last (row_evals r) (0, 0)))
                      (snd (last (row_evals r) (0, 0))) (row_l2 r)]
              else []) ++ pass_calls a xi xb lg (S it) rows)).
  { intros z0. simpl. apply grads_zeroed_blocks. intros z1.
    destruct (Nat.eqb (Nat.modulo it lg) 0); simpl; apply IH. }
  destruct (grid_update_due it); simpl; apply H.
Qed.

(** X11.  In a training pass every [backward] is preceded by a
    [zero_grad] with no other [backward] in between, whether or not the
    gradients were zeroed before the pass: gradients never accumulate from
    one closure evaluation to the next. *)
Theorem fit_zeroes_gradients {L : Lib} (env : Env) :
  g_log env <> 0%nat ->
  grads_zeroed false (fst (fit env)).
Proof.
  intros Hlog. destruct (fit_calls env Hlog) as [rows [env' [Hf _]]].
  rewrite Hf. simpl. apply grads_zeroed_pass.
Qed.

Lemma fit_zeroes_gradients_witness :
  grads_zeroed false (fst (@fit demo_lib demo_env)).
Proof.
  apply (@fit_zeroes_gradients demo_lib demo_env). discriminate.
Defined.

Lemma reports_blocks {L : Lib} (a : Q) (xi xb : Tensor2) (evals : list (Q * Q))
    (rest : list Event) :
  forall acc,
    reports_last_loss a
      (match evals with
       | [] => acc
       | _ :: _ => Some (weighted a (last evals (0, 0)))
       end) rest ->
    reports_last_loss a acc
      (flat_map (fun r => closure_block xi xb (weighted a r)) evals ++ rest).
Proof.
  induction evals as [|r evals IH]; intros acc H; [exact H|].
  simpl. apply IH. destruct evals as [|r' evals']; [exact H|].
  rewrite !last_cons in H. rewrite !last_cons. exact H.
Qed.

Lemma reports_pass {L : Lib} (a : Q) (xi xb : Tensor2) (lg : nat)
    (rows : list IterRow) :
  Forall (row_ok xi xb) rows ->
  forall it acc, reports_last_loss a acc (pass_calls a xi xb lg it rows).
Proof.
  induction 1 as [|r rows [[Hlen _] _] _ IH]; intros it acc; [exact I|].
  cbn [pass_calls]. unfold iter_calls, step_calls.
  rewrite <- !app_assoc.
  assert (H : forall acc0, reports_last_loss a acc0
            ((EvStep it (row_opt r) ::
              flat_map (fun r0 => closure_block xi xb (weighted a r0)) (row_evals r)) ++
             [EvL2 it xi] ++
             (if Nat.eqb (Nat.modulo it lg) 0
              then [EvSetDescription it (fst (last (row_evals r) (0, 0)))
                      (snd (last (row_evals r) (0, 0))) (row_l2 r)]
              else []) ++ pass_calls a xi xb lg (S it) rows)).
  { intros acc0. simpl. apply reports_blocks.
    destruct (row_evals r) as [|r0 evals] eqn:E; [simpl in Hlen; lia|].
    destruct (Nat.eqb (Nat.modulo it lg) 0); simpl; [|apply IH].
    split; [reflexivity | apply IH]. }
  destruct (grid_update_due it); simpl; apply H.
Qed.

(** X12.  The residuals shown in the description of an iteration are
    those of the latest closure evaluation: their weighted sum
    alpha * pde + bc is the loss on which [backward] was called last.  They
    are not recomputed for the parameters the step ends with, on which the
    l2 error is computed. *)
Theorem fit_reports_last_evaluation {L : Lib} (env : Env) :
  g_log env <> 0%nat ->
  reports_last_loss (g_alpha env) None (fst (fit env)).
Proof.
  intros Hlog. destruct (fit_calls env Hlog) as [rows [env' [Hf [_ [Hr _]]]]].
  rewrite Hf. simpl. apply (reports_pass _ _ _ _ _ Hr).
Qed.

Lemma fit_reports_last_evaluation_witness :
  reports_last_loss (1 # 10) None (fst (@fit demo_lib demo_env)).
Proof.
  apply (@fit_reports_last_evaluation demo_lib demo_env). discriminate.
Defined.

(** ** The settings [steps] and [log] *)

(** X13.  With steps = 0 a training pass constructs the optimizer and the
    progress bar and does nothing else: no grid update, no optimizer step,
    and the module namespace, unbound [pde_loss] and [bc_loss] included,
    is left exactly as it was. *)
Theorem fit_zero_steps {L : Lib} (env : Env) :
  g_steps env = 0%nat ->
  fit env = ([EvLBFGS (g_model env); EvTqdm 0], Ok env).
Proof.
  intros H. unfold fit. rewrite H. reflexivity.
Qed.

Lemma fit_zero_steps_witness :
  @fit demo_lib (@Build_Env demo_lib (1 # 4) [[0; 0]] [[1; 0]] 0 (1 # 10) 1 None None) =
    ([EvLBFGS (1 # 4 : @Model demo_lib); EvTqdm 0],
     Ok (@Build_Env demo_lib (1 # 4) [[0; 0]] [[1; 0]] 0 (1 # 10) 1 None None)).
Proof.
  apply (@fit_zero_steps demo_lib). reflexivity.
Defined.

Lemma bind_raise {L : Lib} {A B : Type} (m : W A) (f : A -> W B) t x :
  m = (t, Raise x) -> bind m f = (t, Raise x).
Proof.
  intros H. unfold bind. rewrite H. reflexivity.
Qed.

(** X14.  With log = 0 and at least one step, a training pass ends in a
    ZeroDivisionError of the notebook's own, raised by [_ % log] in the
    first iteration: after the grid update, the first optimizer step and
    the l2 report, and before any description is set. *)
Theorem fit_log_zero {L : Lib} (env : Env) :
  g_log env = 0%nat -> g_steps env <> 0%nat ->
  exists t,
    fit env = (t, Raise ZeroDivisionError) /\
    marks t = [MLbfgs; MTqdm (g_steps env); MUpdateGrid 0; MStep 0; ML2 0] /\
    (forall raises, quietly raises [] t -> exec raises (fit env) = fit env).
Proof.
  intros Hlog Hst.
  destruct (g_steps env) as [|k] eqn:Ek; [congruence|].
  set (env1 := set_model env (update_grid_from_samples (g_model env) (g_x_i env))).
  destruct (lbfgs_step_runs 0 (LBFGS_new (g_model env)) env1)
    as [ts [o' [e2 [Hstep [Hm [_ [Hs2 [Hp Hb]]]]]]]].
  destruct (get_global_bound "pde_loss" _ Hp) as [pde [Epde Hgp]].
  destruct (get_global_bound "bc_loss" _ Hb) as [bc [Ebc Hgb]].
  assert (Hlog2 : g_log e2 = 0%nat).
  { destruct Hs2 as [_ [_ [_ [_ E]]]]. rewrite E. exact Hlog. }
  assert (Hit : fit_iter 0 (LBFGS_new (g_model env), env) =
                ([EvUpdateGrid 0 (g_x_i env)] ++
                 (EvStep 0 (LBFGS_new (g_model env)) :: ts) ++
                 [] ++ [] ++ [EvL2 0 (g_x_i e2)] ++ [], Raise ZeroDivisionError)).
  { unfold fit_iter.
    apply (bind_ok _ _ [] 0%nat); [reflexivity|].
    apply (bind_ok _ _ [EvUpdateGrid 0 (g_x_i env)] env1); [reflexivity|].
    apply (bind_ok _ _ _ (o', e2)); [exact Hstep|].
    apply (bind_ok _ _ [] pde); [exact Hgp|].
    apply (bind_ok _ _ [] bc); [exact Hgb|].
    apply (bind_ok _ _ [EvL2 0 (g_x_i e2)] tt); [reflexivity|].
    apply bind_raise. unfold py_mod. rewrite Hlog2. reflexivity. }
  assert (Hfit : fit env =
                 ([EvLBFGS (g_model env)] ++ [EvTqdm (S k)] ++
                  ([EvUpdateGrid 0 (g_x_i env)] ++
                   (EvStep 0 (LBFGS_new (g_model env)) :: ts) ++
                   [] ++ [] ++ [EvL2 0 (g_x_i e2)] ++ []), Raise ZeroDivisionError)).
  { unfold fit. rewrite Ek.
    apply (bind_ok _ _ [EvLBFGS (g_model env)] tt); [reflexivity|].
    apply (bind_ok _ _ [EvTqdm (S k)] tt); [reflexivity|].
    apply bind_raise.
    change (for_each (seq 0 (S k)) fit_iter (LBFGS_new (g_model env), env))
      with (bind (fit_iter 0 (LBFGS_new (g_model env), env))
                 (for_each (seq 1 k) fit_iter)).
    apply bind_raise. exact Hit. }
  eexists. split; [exact Hfit|]. split.
  - rewrite !marks_app. simpl. rewrite Hm. reflexivity.
  - intros raises Hq. unfold exec. rewrite Hfit. cbv beta iota delta [fst].
    rewrite (cut_quiet raises _ [] Hq). reflexivity.
Qed.

Lemma fit_log_zero_witness :
  exists t,
    @fit demo_lib demo_env_log0 = (t, Raise ZeroDivisionError) /\
    marks t = [MLbfgs; MTqdm 20; MUpdateGrid 0; MStep 0; ML2 0].
Proof.
  destruct (@fit_log_zero demo_lib demo_env_log0) as [t [H1 [H2 _]]].
  - reflexivity.
  - discriminate.
  - exists t. split; assumption.
Defined.

Lemma describe_iters_app (a b : list Mark) :
  describe_iters (a ++ b) = describe_iters a ++ describe_iters b.
Proof.
  unfold describe_iters. apply flat_map_app.
Qed.

Lemma l2_iters_app (a b : list Mark) : l2_iters (a ++ b) = l2_iters a ++ l2_iters b.
Proof.
  unfold l2_iters. apply flat_map_app.
Qed.

Lemma step_iters_app (a b : list Mark) : step_iters (a ++ b) = step_iters a ++ step_iters b.
Proof.
  unfold step_iters. apply flat_map_app.
Qed.

Lemma iters_of_loop (lg : nat) (l : list nat) :
  describe_iters (flat_map (iter_marks lg) l) =
    filter (fun it => Nat.eqb (Nat.modulo it lg) 0) l /\
  l2_iters (flat_map (iter_marks lg) l) = l /\
  step_iters (flat_map (iter_marks lg) l) = l.
Proof.
  induction l as [|it l [IH1 [IH2 IH3]]]; [repeat split|].
  cbn [flat_map filter].
  rewrite describe_iters_app, l2_iters_app, step_iters_app, IH1, IH2, IH3.
  unfold iter_marks.
  rewrite !describe_iters_app, !l2_iters_app, !step_iters_app.
  destruct (grid_update_due it); destruct (Nat.eqb (Nat.modulo it lg) 0);
    repeat split.
Qed.

(** X15.  A training pass takes exactly one optimizer step and makes
    exactly one l2 report in each of its iterations 0, ..., steps - 1, and
    refreshes the description in exactly the iterations whose index is a
    multiple of [log]. *)
Theorem fit_progress_reports {L : Lib} (env : Env) :
  g_log env <> 0%nat ->
  exists t env',
    fit env = (t, Ok env') /\
    step_iters (marks t) = seq 0 (g_steps env) /\
    l2_iters (marks t) = seq 0 (g_steps env) /\
    describe_iters (marks t) =
      filter (fun it => Nat.eqb (Nat.modulo it (g_log env)) 0) (seq 0 (g_steps env)).
Proof.
  intros Hlog.
  destruct (fit_runs env Hlog) as [t [env' [Hf [_ [Hm _]]]]].
  eexists. exists env'. split; [exact Hf|].
  rewrite (fit_marks_eq env t Hm). unfold fit_marks.
  destruct (iters_of_loop (g_log env) (seq 0 (g_steps env))) as [H1 [H2 H3]].
  split; [exact H3|]. split; [exact H2 | exact H1].
Qed.

Lemma fit_progress_reports_witness :
  exists t env',
    @fit demo_lib demo_env = (t, Ok env') /\
    l2_iters (marks t) = seq 0 20.
Proof.
  destruct (@fit_progress_reports demo_lib demo_env) as [t [env' [H1 [_ [H2 _]]]]].
  - discriminate.
  - exists t, env'. split; assumption.
Defined.

(** ** The shapes of the residuals *)

Lemma rows_of_map_singleton {A : Type} (f : A -> Q) (l : list A) :
  has_shape2 (length l) 1 (map (fun x => [f x]) l).
Proof.
  split; [apply length_map|]. apply Forall_forall. intros r Hr.
  apply in_map_iff in Hr. destruct Hr as [p [E _]]. subst r. reflexivity.
Qed.

Lemma laplacian_of_square (H : Tensor2) :
  has_shape2 2 2 H ->
  teq1 [sum_list (diagonal H)] [nth 0 (nth 0 H []) 0 + nth 1 (nth 1 H []) 0].
Proof.
  intros [Hn Hr].
  destruct H as [|r0 [|r1 [|r2 H]]]; simpl in Hn; try discriminate.
  inversion Hr as [|? ? H0 Hr']; subst. inversion Hr' as [|? ? H1 _]; subst.
  destruct r0 as [|a [|b [|c r0]]]; simpl in H0; try discriminate.
  destruct r1 as [|c [|d [|e r1]]]; simpl in H1; try discriminate.
  unfold diagonal, sum_list. simpl. constructor; [ring | constructor].
Qed.

(** X16.  The two tensors subtracted in each residual have the same
    shape, one column with one row per point, so that the subtraction is
    entry by entry and nothing is broadcast: [lap] against [source] on the
    interior batch, the output of the model against [bc_true] on the
    boundary batch.  The entry of [lap] for a point is the sum of the two
    diagonal entries of its 2 by 2 Hessian. *)
Theorem residual_shapes_agree {L : Lib} (m : Model) (xi xb : Tensor2) (b : nat) :
  jacobian_shape -> forward_shape m -> has_shape2 (S b) 2 xi ->
  has_shape2 (S b) 1 (lap m xi) /\ has_shape2 (S b) 1 (source_fun xi) /\
  has_shape2 (length xb) 1 (forward m xb) /\ has_shape2 (length xb) 1 (sol_fun xb) /\
  Forall2 (fun row H => teq1 row [nth 0 (nth 0 H []) 0 + nth 1 (nth 1 H []) 0])
          (lap m xi) (sol_D2 m xi).
Proof.
  intros HJ HF Hx.
  destruct (sol_D2_shape m xi b 1 HJ HF Hx) as [Hlen Hblocks].
  split; [|split; [|split; [|split]]].
  - unfold lap. rewrite <- Hlen. apply rows_of_map_singleton.
  - rewrite source_fun_rows. destruct Hx as [Hn _]. rewrite <- Hn.
    apply rows_of_map_singleton.
  - apply HF.
  - rewrite sol_fun_rows. apply rows_of_map_singleton.
  - unfold lap. clear Hlen. induction Hblocks as [|H l HH _ IH]; simpl; constructor.
    + apply laplacian_of_square. exact HH.
    + exact IH.
Qed.

Lemma residual_shapes_agree_witness :
  has_shape2 3 1 (@lap demo_lib (g_model demo_env) (g_x_i demo_env)) /\
  has_shape2 3 1 (@source_fun demo_lib (g_x_i demo_env)).
Proof.
  destruct (@residual_shapes_agree demo_lib (g_model demo_env) (g_x_i demo_env)
              (g_x_b demo_env) 2) as [H1 [H2 _]].
  - exact demo_jacobian_shape.
  - apply demo_forward_shape.
  - split; [reflexivity | repeat constructor].
  - split; assumption.
Defined.
